(** * redeo: the connection-serving engine of [server.go]

    A shallow embedding of [Server] and of its methods [Handle], [Apply],
    [Close], [serveClient], [writeError] and [listenUnix], with the
    collaborators that live in other files of the package (the responder,
    the session, the session registry, the statistics registry, the codec)
    described by small models, and the behaviour of the engine stated over
    the trace of calls it makes on the connection. *)

From stdpp Require Import gmap strings list fin_maps.
From Stdlib Require Import Ascii ZArith.

Local Open Scope string_scope.
Local Open Scope list_scope.

(** ** Errors

    Go's [error] values, as far as the engine tells them apart: [io.EOF]
    (compared with [==] in [writeError]), values of the package's
    [ClientError] type (the type assertion [err.(ClientError)] in
    [serveClient]) and every other error. *)

Inductive error : Type :=
| EOF
| ClientError (msg : string)
| OtherError (msg : string).

#[global] Instance error_eq_dec : EqDecision error.
Proof. solve_decision. Defined.

(** The type assertion [_, ok := err.(ClientError)]. *)
Definition isClientError (e : error) : bool :=
  match e with
  | ClientError _ => true
  | _ => false
  end.

(** Modelled from the spec: [UnknownCommand], the constructor of the
    "unknown command" error, is declared outside [server.go]; the spec
    classifies it as a recoverable (client-level) error. *)
Definition UnknownCommand (name : string) : error :=
  ClientError ("unknown command '" +:+ name +:+ "'").

(** ** Case folding

    [strings.ToLower], as the Go library has it: a string whose bytes are
    all ASCII is folded byte by byte, [A-Z] to [a-z]; any other string
    goes through [Map(unicode.ToLower, s)], which folds the letters of
    every script and rewrites invalid UTF-8. *)

Definition lower_ascii (c : ascii) : ascii :=
  let n := N_of_ascii c in
  if ((65 <=? n)%N && (n <=? 90)%N)%bool then ascii_of_N (n + 32) else c.

(** The ASCII path of [strings.ToLower]. *)
Fixpoint lowerASCII (s : string) : string :=
  match s with
  | EmptyString => EmptyString
  | String c s' => String (lower_ascii c) (lowerASCII s')
  end.

(** Every byte is below [utf8.RuneSelf]. *)
Fixpoint isASCII (s : string) : bool :=
  match s with
  | EmptyString => true
  | String c s' => (N_of_ascii c <? 128)%N && isASCII s'
  end.

(** Some byte is an upper-case ASCII letter. *)
Fixpoint hasUpper (s : string) : bool :=
  match s with
  | EmptyString => false
  | String c s' =>
      ((65 <=? N_of_ascii c)%N && (N_of_ascii c <=? 90)%N) || hasUpper s'
  end.

(** [Map(unicode.ToLower, s)], the other path of [strings.ToLower]: its
    tables are the Go library's, so the mapping is taken as given, with
    the one fact about it that the development relies on: no byte of its
    result is an upper-case ASCII letter. *)
Class UnicodeFold : Type := mkUnicodeFold {
  unicodeLower : string -> string;
  unicodeLower_no_upper : forall s, hasUpper (unicodeLower s) = false
}.

Definition ToLower `{UnicodeFold} (s : string) : string :=
  if isASCII s then lowerASCII s else unicodeLower s.

(** ** Sessions, requests, responders *)

(** Modelled from the spec: the [Client] struct (the spec's Session) is
    declared outside [server.go]: an identity, the quit flag, the number of
    commands processed and the name of the last command.  The transport
    [client.conn] is kept beside the record, in the state of the serve
    loop, which is its only user. *)
Record Client : Type := mkClient {
  id : N;
  quit : bool;
  cmdCount : N;
  lastCmd : string
}.

(** Modelled from the spec: [Client.trackCommand] updates the session's
    per-command counters: one more command processed, and its name. *)
Definition trackCommand (name : string) (c : Client) : Client :=
  {| id := id c; quit := quit c; cmdCount := cmdCount c + 1; lastCmd := name |}.

Definition setQuit (c : Client) : Client :=
  {| id := id c; quit := true; cmdCount := cmdCount c; lastCmd := lastCmd c |}.

(** [Request]: the command name, its arguments and the session it came
    from ([req.client], a pointer that may be nil; the record holds the
    session the pointer refers to). *)
Record Request : Type := mkRequest {
  Name : string;
  Args : list string;
  client : option Client
}.

Definition withClient (req : Request) (c : option Client) : Request :=
  {| Name := Name req; Args := Args req; client := c |}.

(** Modelled from the spec: the [Responder] is declared outside
    [server.go].  It accumulates reply fragments or one error, the two
    being mutually exclusive: the last kind written wins. *)
Inductive Responder : Type :=
| Fragments (fs : list string)
| Failure (e : error).

#[global] Instance Responder_eq_dec : EqDecision Responder.
Proof. solve_decision. Defined.

Definition NewResponder : Responder := Fragments [].

Definition WriteFragment (f : string) (res : Responder) : Responder :=
  match res with
  | Fragments fs => Fragments (fs ++ [f])
  | Failure _ => Fragments [f]
  end.

Definition WriteError (e : error) (res : Responder) : Responder := Failure e.

(** ** Statistics *)

(** Modelled from the spec: [ServerInfo] is declared outside [server.go];
    it holds the cumulative counters of connections accepted and of
    commands dispatched, bumped by [onConnect] and [onCommand]. *)
Record ServerInfo : Type := mkInfo {
  connections : N;
  commandsProcessed : N
}.

Definition onConnect (i : ServerInfo) : ServerInfo :=
  {| connections := connections i + 1; commandsProcessed := commandsProcessed i |}.

Definition onCommand (i : ServerInfo) : ServerInfo :=
  {| connections := connections i; commandsProcessed := commandsProcessed i + 1 |}.

(** ** Configuration, listeners, transports *)

(** Modelled from the spec: [Config] is declared outside [server.go]; the
    engine reads the listen address, the socket path, the keep-alive
    interval and the idle timeout (durations are integers, [0] disables). *)
Record Config : Type := mkConfig {
  Addr : string;
  Socket : string;
  TCPKeepAlive : Z;
  Timeout : Z
}.

(** A [net.Listener], seen through what its [Close] will report. *)
Record Listener : Type := mkListener {
  lisClose : option error
}.

(** The fixed part of a [net.Conn]: whether it is a [*net.TCPConn], and
    what its [Close] will report. *)
Record Transport : Type := mkTransport {
  isTCP : bool;
  connClose : option error
}.

(** Modelled from the spec: the session registry [clients] is declared
    outside [server.go]: a mapping from identity to session, seen here
    through the session's transport.  [Put] adds or replaces by identity,
    [Close] closes that transport and deletes the entry, [Clear] closes
    every registered transport and empties the mapping, reporting an error
    of one of the closes if there was any. *)
Definition clients_Put (i : N) (t : Transport) (m : gmap N Transport)
  : gmap N Transport := <[i := t]> m.

Definition clients_Close (i : N) (m : gmap N Transport)
  : gmap N Transport * option error :=
  match m !! i with
  | Some t => (delete i m, connClose t)
  | None => (m, None)
  end.

Definition clients_Clear (m : gmap N Transport)
  : gmap N Transport * option error :=
  (∅, map_fold (fun _ t acc =>
                  match connClose t with
                  | Some e => Some e
                  | None => acc
                  end) None m).

(** ** The server *)

Section Engine.

(** The state the application's handlers keep for themselves. *)
Context {App : Type}.

(** The library's folding of the names that are not ASCII. *)
Context `{Fold : UnicodeFold}.

(** What one call of a handler's [ServeClient(res, req)] did: the
    responder as the handler left it, what it did to the session behind
    [req.client] (setting the quit flag, say), its own state, and the
    error it returned. *)
Record HandlerResult : Type := mkHandlerResult {
  hres : Responder;
  hsession : Client -> Client;
  happ : App;
  herr : option error
}.

(** The [Handler] interface, with its one method, and [HandlerFunc], the
    function type that implements it. *)
Definition HandlerFunc : Type := Responder -> Request -> App -> HandlerResult.

Record Handler : Type := mkHandler {
  ServeClient : HandlerFunc
}.

Record Server : Type := mkServer {
  config : Config;
  info : ServerInfo;
  commands : gmap string Handler;
  tcp : option Listener;
  unix : option Listener;
  clients : gmap N Transport
}.

(** [NewServer], for a configuration that is given (the default
    configuration that replaces a nil one is declared outside
    [server.go]). *)
Definition NewServer (cfg : Config) : Server :=
  {| config := cfg;
     info := {| connections := 0; commandsProcessed := 0 |};
     commands := ∅;
     tcp := None;
     unix := None;
     clients := ∅ |}.

Definition withInfo (srv : Server) (i : ServerInfo) : Server :=
  {| config := config srv; info := i; commands := commands srv;
     tcp := tcp srv; unix := unix srv; clients := clients srv |}.

Definition withCommands (srv : Server) (cs : gmap string Handler) : Server :=
  {| config := config srv; info := info srv; commands := cs;
     tcp := tcp srv; unix := unix srv; clients := clients srv |}.

Definition withTcp (srv : Server) (l : option Listener) : Server :=
  {| config := config srv; info := info srv; commands := commands srv;
     tcp := l; unix := unix srv; clients := clients srv |}.

Definition withUnix (srv : Server) (l : option Listener) : Server :=
  {| config := config srv; info := info srv; commands := commands srv;
     tcp := tcp srv; unix := l; clients := clients srv |}.

Definition withClients (srv : Server) (m : gmap N Transport) : Server :=
  {| config := config srv; info := info srv; commands := commands srv;
     tcp := tcp srv; unix := unix srv; clients := m |}.

(** Closing one listener inside [Close]: when the field is not nil the
    listener is closed, and a failure is stored in [err]. *)
Definition closeListener (l : option Listener) (err : option error)
  : option error :=
  match l with
  | Some lis =>
      match lisClose lis with
      | Some e => Some e
      | None => err
      end
  | None => err
  end.

(** [Close]: the named result [err] starts as nil; the TCP listener and
    then the Unix one are closed and their fields reset; then the registry
    is cleared, and [if e := srv.clients.Clear(); err != nil { err = e }]. *)
Definition Close (srv : Server) : Server * option error :=
  let err := None in
  let err := closeListener (tcp srv) err in
  let srv := withTcp srv None in
  let err := closeListener (unix srv) err in
  let srv := withUnix srv None in
  let '(m, e) := clients_Clear (clients srv) in
  let srv := withClients srv m in
  let err := match err with
             | Some _ => e
             | None => err
             end in
  (srv, err).

(** [Handle]: [srv.commands[strings.ToLower(name)] = handler]. *)
Definition Handle (srv : Server) (name : string) (handler : Handler) : Server :=
  withCommands srv (<[ToLower name := handler]> (commands srv)).

(** [HandleFunc]: [srv.Handle(name, Handler(callback))]. *)
Definition HandleFunc (srv : Server) (name : string) (callback : HandlerFunc)
  : Server :=
  Handle srv name (mkHandler callback).

(** What [Apply] returns and leaves behind.  [Unknown e] is the return
    [nil, UnknownCommand(req.Name)]; [Handled res err] is the return
    [res, err] after the handler ran. *)
Inductive Reply : Type :=
| Unknown (e : error)
| Handled (res : Responder) (err : option error).

Definition replyRes (r : Reply) : option Responder :=
  match r with
  | Unknown _ => None
  | Handled res _ => Some res
  end.

Definition replyErr (r : Reply) : option error :=
  match r with
  | Unknown e => Some e
  | Handled _ err => err
  end.

Record Applied : Type := mkApplied {
  asrv : Server;
  asession : option Client;
  aapp : App;
  areply : Reply
}.

(** [Apply]: look the name up exactly as the request carries it; when it
    is absent return at once; otherwise count the command, track it on the
    session when there is one, and run the handler on a fresh responder. *)
Definition Apply (srv : Server) (req : Request) (app : App) : Applied :=
  match commands srv !! Name req with
  | None =>
      {| asrv := srv; asession := client req; aapp := app;
         areply := Unknown (UnknownCommand (Name req)) |}
  | Some cmd =>
      let srv := withInfo srv (onCommand (info srv)) in
      let req := withClient req (trackCommand (Name req) <$> client req) in
      let res := NewResponder in
      let h := ServeClient cmd res req app in
      {| asrv := srv; asession := hsession h <$> client req; aapp := happ h;
         areply := Handled (hres h) (herr h) |}
  end.

End Engine.

Arguments HandlerResult : clear implicits.
Arguments HandlerFunc : clear implicits.
Arguments Handler : clear implicits.
Arguments Server : clear implicits.
Arguments Applied : clear implicits.

(** ** Connections and the trace of a session *)

(** A connection, as the serve loop meets it: the fixed transport, what the
    successive calls of [ParseRequest] on its buffered reader will return,
    what the successive writes on it will report, and how many of each
    were made so far.  Any peer, any framing error and any expiry of the
    idle deadline is some choice of [reads] and [writes]. *)
Record Conn : Type := mkConn {
  transport : Transport;
  reads : nat -> Request + error;
  writes : nat -> option error;
  rpos : nat;
  wpos : nat
}.

(** Modelled from the spec: [ParseRequest], the codec's decoder, is
    declared outside [server.go]: it decodes one request or fails, EOF
    being the end-of-stream condition, and resumes where it stopped. *)
Definition ParseRequest (conn : Conn) : (Request + error) * Conn :=
  (reads conn (rpos conn),
   {| transport := transport conn; reads := reads conn; writes := writes conn;
      rpos := S (rpos conn); wpos := wpos conn |}).

(** Modelled from the spec: [Responder.WriteTo] serializes the accumulated
    payload to the connection and reports a write error. *)
Definition WriteTo (res : Responder) (conn : Conn) : Conn * option error :=
  ({| transport := transport conn; reads := reads conn; writes := writes conn;
      rpos := rpos conn; wpos := S (wpos conn) |},
   writes conn (wpos conn)).

(** The calls a session makes on its connection, in order. *)
Inductive Event : Type :=
| EvKeepAlive (period : Z)
| EvDeadline (timeout : Z)
| EvParse (r : Request + error)
| EvWrite (res : Responder) (out : option error)
| EvClose (i : N) (out : option error).

(** The [return] statements of the loop of [serveClient]. *)
Inductive Exit : Type :=
| ExitDecode   (* ParseRequest failed *)
| ExitFatal    (* Apply failed with an error that is no ClientError *)
| ExitWrite    (* res.WriteTo failed *)
| ExitQuit.    (* client.quit after the reply was written *)

#[global] Instance Exit_eq_dec : EqDecision Exit.
Proof. solve_decision. Defined.

(** [writeError]: nothing on [io.EOF]; otherwise a fresh responder holding
    the error is written, and the outcome of the write is dropped. *)
Definition writeError (conn : Conn) (err : error) : Conn * list Event :=
  if decide (err = EOF) then (conn, [])
  else
    let res := NewResponder in
    let res := WriteError err res in
    let '(conn, out) := WriteTo res conn in
    (conn, [EvWrite res out]).

Section Serving.

Context {App : Type}.

(** What the loop of [serveClient] works on: the server, the session
    [client], its connection and the handlers' state. *)
Record Loop : Type := mkLoop {
  lsrv : Server App;
  lclient : Client;
  lconn : Conn;
  lapp : App
}.

(** [client.conn.SetDeadline], when a timeout is configured. *)
Definition armDeadline (cfg : Config) : list Event :=
  if (0 <? Timeout cfg)%Z then [EvDeadline (Timeout cfg)] else [].

(** One turn of the [for] loop of [serveClient]: the state it leaves, the
    calls it made on the connection, and [None] when the loop goes on or
    the [return] that ended it. *)
Definition serveIter (st : Loop) : Loop * list Event * option Exit :=
  let srv := lsrv st in
  let tr0 := armDeadline (config srv) in
  let '(r, conn) := ParseRequest (lconn st) in
  match r with
  | inr err =>
      let '(conn, trw) := writeError conn err in
      (mkLoop srv (lclient st) conn (lapp st),
       tr0 ++ EvParse r :: trw, Some ExitDecode)
  | inl req =>
      let req := withClient req (Some (lclient st)) in
      let a := Apply srv req (lapp st) in
      (* req.client and client are one session *)
      let cl := default (lclient st) (asession a) in
      match areply a with
      | Unknown err | Handled _ (Some err) =>
          let '(conn, trw) := writeError conn err in
          (mkLoop (asrv a) cl conn (aapp a),
           tr0 ++ EvParse r :: trw,
           if isClientError err then None else Some ExitFatal)
      | Handled res None =>
          let '(conn, out) := WriteTo res conn in
          (mkLoop (asrv a) cl conn (aapp a),
           tr0 ++ [EvParse r; EvWrite res out],
           match out with
           | Some _ => Some ExitWrite
           | None => if quit cl then Some ExitQuit else None
           end)
      end
  end.

(** How a run of the loop stands after some turns. *)
Inductive Status : Type :=
| Running
| Exited (why : Exit).

(** The loop, for at most [fuel] turns. *)
Fixpoint serveLoop (fuel : nat) (st : Loop) : Loop * list Event * Status :=
  match fuel with
  | O => (st, [], Running)
  | S fuel' =>
      let '(st1, tr1, ex) := serveIter st in
      match ex with
      | Some why => (st1, tr1, Exited why)
      | None =>
          let '(st2, tr2, s) := serveLoop fuel' st1 in
          (st2, tr1 ++ tr2, s)
      end
  end.

(** TCP keep-alive, when configured and the connection is a TCP one. *)
Definition keepAlive (cfg : Config) (t : Transport) : list Event :=
  if (0 <? TCPKeepAlive cfg)%Z then
    if isTCP t then [EvKeepAlive (TCPKeepAlive cfg)] else []
  else [].

(** The deferred [srv.clients.Close(client.id)]; its argument is evaluated
    when the [defer] statement runs, at the start of [serveClient]. *)
Definition deregister (i : N) (srv : Server App) : Server App * list Event :=
  let '(m, out) := clients_Close i (clients srv) in
  (withClients srv m,
   match clients srv !! i with
   | Some _ => [EvClose i out]
   | None => []
   end).

(** [serveClient]: register the session, count the connection, apply the
    keep-alive, run the loop, and on its return deregister the session,
    which closes the transport. *)
Definition serveClient (fuel : nat) (srv : Server App) (cl : Client)
    (conn : Conn) (app : App) : Loop * list Event * Status :=
  let srv := withClients srv (clients_Put (id cl) (transport conn) (clients srv)) in
  let srv := withInfo srv (onConnect (info srv)) in
  let tr0 := keepAlive (config srv) (transport conn) in
  let '(st, tr, s) := serveLoop fuel (mkLoop srv cl conn app) in
  match s with
  | Running => (st, tr0 ++ tr, Running)
  | Exited why =>
      let '(srv', trc) := deregister (id cl) (lsrv st) in
      (mkLoop srv' (lclient st) (lconn st) (lapp st), tr0 ++ tr ++ trc, Exited why)
  end.

End Serving.

Arguments Loop : clear implicits.

(** ** The socket path *)

(** The operating system, as [listenUnix] meets it: what sits at each
    path, whether [os.Stat] and [os.RemoveAll] fail on it, and whether
    binding a socket at a free path fails for a reason of its own. *)
Inductive FileKind : Type :=
| SocketFile
| RegularFile
| Directory.

#[global] Instance FileKind_eq_dec : EqDecision FileKind.
Proof. solve_decision. Defined.

Record File : Type := mkFile {
  kind : FileKind;
  statErr : option error;
  removeErr : option error
}.

Record OS : Type := mkOS {
  files : gmap string File;
  bindErr : string -> option error
}.

Definition ErrNotExist : error := OtherError "no such file or directory".
Definition ErrAddrInUse : error := OtherError "bind: address already in use".

(** [os.Stat]: the file's description, or an error and no description. *)
Definition os_Stat (os : OS) (path : string) : option FileKind * option error :=
  match files os !! path with
  | None => (None, Some ErrNotExist)
  | Some f =>
      match statErr f with
      | Some e => (None, Some e)
      | None => (Some (kind f), None)
      end
  end.

(** [os.IsNotExist]; false on a nil error. *)
Definition os_IsNotExist (err : option error) : bool :=
  bool_decide (err = Some ErrNotExist).

(** [os.RemoveAll]: nil when the path is absent. *)
Definition os_RemoveAll (os : OS) (path : string) : OS * option error :=
  match files os !! path with
  | None => (os, None)
  | Some f =>
      match removeErr f with
      | Some e => (os, Some e)
      | None => ({| files := delete path (files os); bindErr := bindErr os |}, None)
      end
  end.

(** [net.Listen("unix", path)]: binding fails when the path is occupied. *)
Definition net_Listen_unix (os : OS) (path : string)
  : OS * option Listener * option error :=
  match files os !! path with
  | Some _ => (os, None, Some ErrAddrInUse)
  | None =>
      match bindErr os path with
      | Some e => (os, None, Some e)
      | None =>
          ({| files := <[path := mkFile SocketFile None None]> (files os);
              bindErr := bindErr os |},
           Some (mkListener None), None)
      end
  end.

(** A call either returns or panics (a method called on a nil value). *)
Inductive Outcome (A : Type) : Type :=
| Returned (a : A)
| Panicked.

Arguments Returned {A} a.
Arguments Panicked {A}.

(** [listenUnix]: [stat.IsDir()] is evaluated whenever [os.IsNotExist(err)]
    is false, also when [os.Stat] failed and [stat] is nil. *)
Definition listenUnix {App : Type} (srv : Server App) (os : OS)
  : Outcome (OS * option Listener * option error) :=
  let path := Socket (config srv) in
  let '(stat, err) := os_Stat os path in
  if negb (os_IsNotExist err) then
    match stat with
    | None => Panicked
    | Some k =>
        if negb (bool_decide (k = Directory)) then
          let '(os', err) := os_RemoveAll os path in
          match err with
          | Some e => Returned (os', None, Some e)
          | None => Returned (net_Listen_unix os' path)
          end
        else Returned (net_Listen_unix os path)
    end
  else Returned (net_Listen_unix os path).

(** ** Start-up and the accept loop *)

Section Starting.

Context {App : Type}.

(** The accessors [Addr], [Socket] and [Info] of the server. *)
Definition Server_Addr (srv : Server App) : string := Addr (config srv).
Definition Server_Socket (srv : Server App) : string := Socket (config srv).
Definition Server_Info (srv : Server App) : ServerInfo := info srv.

(** How [ListenAndServe] stands once its listeners are set up: it returned
    an error, it panicked inside [listenUnix], or it waits on [<-errs] for
    the first error an accept loop sends. *)
Inductive Startup : Type :=
| StartFailed (e : error)
| StartPanicked
| Waiting.

Record Started : Type := mkStarted {
  ssrv : Server App;
  sos : OS;
  sloops : list (option Listener);   (* the listeners [go srv.serve] was started on *)
  sout : Startup
}.

(** [ListenAndServe], up to the receive on [errs].  [tcpListen] is
    [net.Listen("tcp", _)]: the listener and the error it returns for an
    address. *)
Definition ListenAndServe (srv : Server App)
    (tcpListen : string -> option Listener * option error) (os : OS) : Started :=
  let step1 :=
    if bool_decide (Server_Addr srv <> "") then
      let '(l, err) := tcpListen (Server_Addr srv) in
      let srv := withTcp srv l in
      match err with
      | Some e => (srv, [], Some e)
      | None => (srv, [l], None)
      end
    else (srv, [], None) in
  let '(srv, loops, failed) := step1 in
  match failed with
  | Some e => mkStarted srv os loops (StartFailed e)
  | None =>
      if bool_decide (Server_Socket srv <> "") then
        match listenUnix srv os with
        | Panicked => mkStarted srv os loops StartPanicked
        | Returned (os', l, err) =>
            let srv := withUnix srv l in
            match err with
            | Some e => mkStarted srv os' loops (StartFailed e)
            | None => mkStarted srv os' (loops ++ [l]) Waiting
            end
        end
      else mkStarted srv os loops Waiting
  end.

End Starting.

Arguments Started : clear implicits.

(** What an accept loop does, in order: it starts a session on a
    connection ([go srv.serveClient(NewClient(conn))]), it sends an error
    on [errs], it closes its listener (the deferred [lis.Close()]). *)
Inductive AcceptEvent : Type :=
| AcSpawn (conn : Conn)
| AcSend (e : error)
| AcClose (out : option error).

(** [serve], for at most [fuel] calls of [lis.Accept()], the calls number
    [pos], [pos+1], ... returning what [accepts] gives; the boolean tells
    whether the loop returned. *)
Fixpoint serve (fuel : nat) (lis : Listener) (accepts : nat -> Conn + error)
    (pos : nat) : list AcceptEvent * bool :=
  match fuel with
  | O => ([], false)
  | S fuel' =>
      match accepts pos with
      | inr err => ([AcSend err; AcClose (lisClose lis)], true)
      | inl conn =>
          let '(evs, done) := serve fuel' lis accepts (S pos) in
          (AcSpawn conn :: evs, done)
      end
  end.

(** ** Notions used to state the behaviour of the engine *)

Section Notions.

Context {App : Type}.
Context `{Fold : UnicodeFold}.

(** No key of the command table has an upper-case ASCII letter, as in a
    table filled through [Handle]. *)
Definition folded (srv : Server App) : Prop :=
  forall k, is_Some (commands srv !! k) -> hasUpper k = false.

(** A handler that never ends a session: the errors it returns are client
    errors, and it leaves the quit flag as it found it. *)
Definition benign (h : Handler App) : Prop :=
  forall res req app,
    (forall e, herr (ServeClient h res req app) = Some e -> isClientError e = true) /\
    (forall c, quit (hsession (ServeClient h res req app) c) = quit c).

(** The payload that answers a request: the responder of the handler when
    it returned no error, and otherwise the payload [writeError] builds
    from the error. *)
Definition replyTo (a : Applied App) : Responder :=
  match areply a with
  | Unknown err | Handled _ (Some err) => WriteError err NewResponder
  | Handled res None => res
  end.

(** The answers to a sequence of requests of one session, dispatched in
    order through [Apply] without any connection. *)
Fixpoint answers (srv : Server App) (cl : Client) (app : App)
    (reqs : list Request) : list Responder :=
  match reqs with
  | [] => []
  | req :: reqs' =>
      let a := Apply srv (withClient req (Some cl)) app in
      replyTo a :: answers (asrv a) (default cl (asession a)) (aapp a) reqs'
  end.

(** The session the loop carries on with after [Apply]. *)
Definition sessionAfter (st : Loop App) (req : Request) : Client :=
  default (lclient st)
    (asession (Apply (lsrv st) (withClient req (Some (lclient st))) (lapp st))).

(** The state in which [serveClient] enters its loop: the session is
    registered and the connection counted. *)
Definition startLoop (srv : Server App) (cl : Client) (conn : Conn) (app : App)
  : Loop App :=
  mkLoop (withInfo (withClients srv
                      (clients_Put (id cl) (transport conn) (clients srv)))
                   (onConnect (info srv)))
         cl conn app.

(** The payloads handed to the connection, in order. *)
Fixpoint written (tr : list Event) : list Responder :=
  match tr with
  | [] => []
  | EvWrite res _ :: tr' => res :: written tr'
  | _ :: tr' => written tr'
  end.

(** What the writes number [k], [k+1], ... [k+n-1] on a connection report. *)
Fixpoint outcomes (w : nat -> option error) (k n : nat) : list (option error) :=
  match n with
  | O => []
  | S n' => w k :: outcomes w (S k) n'
  end.

(** What the decodes of a trace returned, in order. *)
Fixpoint parses (tr : list Event) : list (Request + error) :=
  match tr with
  | [] => []
  | EvParse r :: tr' => r :: parses tr'
  | _ :: tr' => parses tr'
  end.

(** How many of the decoded requests of a trace have a name that is in the
    command table of [srv]. *)
Fixpoint dispatched (srv : Server App) (rs : list (Request + error)) : N :=
  match rs with
  | [] => 0
  | inl req :: rs' =>
      (match commands srv !! Name req with
       | Some _ => 1
       | None => 0
       end + dispatched srv rs')%N
  | inr _ :: rs' => dispatched srv rs'
  end.

(** A server after a sequence of registrations through [Handle]. *)
Definition registerAll (srv : Server App) (regs : list (string * Handler App))
  : Server App :=
  fold_left (fun s r => Handle s r.1 r.2) regs srv.

(** The calls of one turn of the serve loop that decodes [req] and writes
    [res], the write reporting [out]. *)
Definition turn (cfg : Config) (req : Request) (res : Responder)
    (out : option error) : list Event :=
  armDeadline cfg ++ [EvParse (inl req); EvWrite res out].

(** The calls of successive turns. *)
Fixpoint turns (cfg : Config) (reqs : list Request) (ress : list Responder)
    (outs : list (option error)) : list Event :=
  match reqs, ress, outs with
  | req :: reqs', res :: ress', out :: outs' =>
      turn cfg req res out ++ turns cfg reqs' ress' outs'
  | _, _, _ => []
  end.

End Notions.

(** The folding the sample application below is run with.  Its names are
    all ASCII, so only the ASCII path of [strings.ToLower] is ever taken;
    on any other string this one folds the ASCII letters and leaves the
    other bytes. *)
#[global] Instance asciiFold : UnicodeFold.
Proof.
  refine {| unicodeLower := lowerASCII |}.
  induction s as [|c s IH]; [reflexivity|].
  cbn [lowerASCII hasUpper]. rewrite IH.
  destruct c as [[] [] [] [] [] [] [] []]; reflexivity.
Defined.

(** ** A sample application

    Three handlers and the peers used to run the engine on concrete input:
    [ping] replies, [bye] replies and sets the quit flag, [half] writes a
    fragment and then returns a client error. *)

Definition cfg0 : Config :=
  {| Addr := ""; Socket := "/tmp/redeo.sock"; TCPKeepAlive := 0; Timeout := 0 |}.

Definition ping : Handler unit := mkHandler (fun res _ app =>
  {| hres := WriteFragment "PONG" res; hsession := fun c => c;
     happ := app; herr := None |}).

Definition bye : Handler unit := mkHandler (fun res _ app =>
  {| hres := WriteFragment "OK" res; hsession := setQuit;
     happ := app; herr := None |}).

Definition half : Handler unit := mkHandler (fun res _ app =>
  {| hres := WriteFragment "half" res; hsession := fun c => c;
     happ := app; herr := Some (ClientError "boom") |}).

Definition sample : Server unit :=
  Handle (Handle (Handle (NewServer cfg0) "ping" ping) "quit" bye) "half" half.

Definition session0 : Client :=
  {| id := 7; quit := false; cmdCount := 0; lastCmd := "" |}.

Definition call (name : string) : Request :=
  {| Name := name; Args := []; client := None |}.

(** A peer that pipelines the given requests and then closes its side;
    every write to it succeeds. *)
Definition peer (reqs : list Request) : Conn :=
  {| transport := {| isTCP := true; connClose := None |};
     reads := fun n => match reqs !! n with
                       | Some r => inl r
                       | None => inr EOF
                       end;
     writes := fun _ => None;
     rpos := 0;
     wpos := 0 |}.

(** A server whose TCP listener will fail to close, with no session. *)
Definition brokenListener : Listener :=
  {| lisClose := Some (OtherError "close tcp: broken") |}.

Definition listening : Server unit :=
  withTcp (NewServer cfg0) (Some brokenListener).

(** File systems with one entry, at the socket path of [cfg0]. *)
Definition occupied (k : FileKind) : OS :=
  {| files := {[ "/tmp/redeo.sock" := mkFile k None None ]};
     bindErr := fun _ => None |}.

(** A server with no listener and one registered session whose transport
    will fail to close. *)
Definition crowded : Server unit :=
  withClients (NewServer cfg0)
    {[ 3%N := {| isTCP := true; connClose := Some (OtherError "close conn: broken") |} ]}.

(** A server whose handlers never end a session. *)
Definition gentle : Server unit :=
  Handle (Handle (NewServer cfg0) "ping" ping) "half" half.

(** File systems with the given file at the socket path of [cfg0] and a
    bystander elsewhere, and with nothing at the socket path. *)
Definition holding (f : File) : OS :=
  {| files := {[ "/tmp/redeo.sock" := f; "/tmp/other" := mkFile RegularFile None None ]};
     bindErr := fun _ => None |}.

Definition bare : OS :=
  {| files := {[ "/tmp/other" := mkFile RegularFile None None ]};
     bindErr := fun _ => None |}.

(** Configurations with both transports and with none, and two ways
    [net.Listen("tcp", _)] may answer. *)
Definition cfgBoth : Config :=
  {| Addr := ":6379"; Socket := "/tmp/redeo.sock"; TCPKeepAlive := 30; Timeout := 5 |}.

Definition cfgNone : Config :=
  {| Addr := ""; Socket := ""; TCPKeepAlive := 0; Timeout := 0 |}.

Definition tcpFree : string -> option Listener * option error :=
  fun _ => (Some (mkListener None), None).

Definition tcpBusy : string -> option Listener * option error :=
  fun _ => (None, Some ErrAddrInUse).

(** A listener on which the given connections arrive, after which
    [Accept] fails with [e]. *)
Definition arrivals (conns : list Conn) (e : error) : nat -> Conn + error :=
  fun n => match conns !! n with
           | Some c => inl c
           | None => inr e
           end.

(** A server with a keep-alive interval and an idle timeout. *)
Definition tuned : Server unit := Handle (NewServer cfgBoth) "ping" ping.

(** A peer that sends the given requests and then a malformed frame. *)
Definition garbler (reqs : list Request) : Conn :=
  {| transport := {| isTCP := false; connClose := None |};
     reads := fun n => match reqs !! n with
                       | Some r => inl r
                       | None => inr (OtherError "malformed frame")
                       end;
     writes := fun _ => None;
     rpos := 0;
     wpos := 0 |}.

(** A peer that pipelines the given requests and to which no write
    succeeds. *)
Definition deaf (reqs : list Request) : Conn :=
  {| transport := {| isTCP := true; connClose := None |};
     reads := fun n => match reqs !! n with
                       | Some r => inl r
                       | None => inr EOF
                       end;
     writes := fun _ => Some (OtherError "broken pipe");
     rpos := 0;
     wpos := 0 |}.

(** A handler that fails with an error that is no client error. *)
Definition crash : Handler unit := mkHandler (fun res _ app =>
  {| hres := res; hsession := fun c => c;
     happ := app; herr := Some (OtherError "disk full") |}).

Definition fragile : Server unit := Handle sample "crash" crash.

(** ** Dispatch *)

(** Splits a membership [H : x ∈ l] along the appends and the elements of
    [l], dropping the elements that cannot be [x]. *)
Ltac elem_cases H :=
  repeat first
    [ apply elem_of_app in H as [H|H]
    | apply elem_of_cons in H as [H|H]
    | discriminate H
    | now apply elem_of_nil in H ].

Lemma lowerASCII_no_upper (s : string) : hasUpper (lowerASCII s) = false.
Proof.
  induction s as [|c s IH]; [reflexivity|].
  cbn [lowerASCII hasUpper]. rewrite IH.
  destruct c as [[] [] [] [] [] [] [] []]; reflexivity.
Qed.

Section DispatchFacts.

Context {App : Type}.
Context `{Fold : UnicodeFold}.
Implicit Types (srv : Server App) (req : Request) (app : App) (h : Handler App).

(** What [strings.ToLower] returns has no upper-case ASCII letter. *)
Lemma ToLower_no_upper (s : string) : hasUpper (ToLower s) = false.
Proof.
  unfold ToLower. destruct (isASCII s).
  - apply lowerASCII_no_upper.
  - apply unicodeLower_no_upper.
Qed.

Lemma Handle_lookup srv name h :
  commands (Handle srv name h) !! ToLower name = Some h.
Proof. unfold Handle; simpl. apply lookup_insert_eq. Qed.

Lemma Handle_lookup_other srv name h k :
  k <> ToLower name ->
  commands (Handle srv name h) !! k = commands srv !! k.
Proof. intros Hk. unfold Handle; simpl. now apply lookup_insert_ne. Qed.

Lemma NewServer_folded cfg : folded (NewServer (App := App) cfg).
Proof. intros k [h Hh]. simpl in Hh. now rewrite lookup_empty in Hh. Qed.

Lemma Handle_folded srv name h : folded srv -> folded (Handle srv name h).
Proof.
  intros Hf k Hk. destruct (decide (k = ToLower name)) as [->|Hne].
  - apply ToLower_no_upper.
  - rewrite Handle_lookup_other in Hk by assumption. now apply Hf.
Qed.

Lemma registerAll_folded srv (regs : list (string * Handler App)) :
  folded srv -> folded (registerAll srv regs).
Proof.
  revert srv. induction regs as [|[n h] regs IH]; intros srv Hf; [exact Hf|].
  simpl. apply IH. now apply Handle_folded.
Qed.

Lemma registerAll_app srv (regs1 regs2 : list (string * Handler App)) :
  registerAll srv (regs1 ++ regs2) = registerAll (registerAll srv regs1) regs2.
Proof. unfold registerAll. apply fold_left_app. Qed.

(** Registrations under names that fold to other keys leave a key alone. *)
Lemma registerAll_lookup_other srv (regs : list (string * Handler App)) k :
  (forall r, r ∈ regs -> ToLower r.1 <> k) ->
  commands (registerAll srv regs) !! k = commands srv !! k.
Proof.
  revert srv. induction regs as [|[n h] regs IH]; intros srv Hk; [reflexivity|].
  simpl. rewrite IH.
  - apply Handle_lookup_other. intros ->.
    apply (Hk (n, h)); [apply elem_of_cons; now left | reflexivity].
  - intros r Hr. apply Hk. apply elem_of_cons. now right.
Qed.

(** [Apply] on a name that is in the table. *)
Lemma Apply_found srv req app h :
  commands srv !! Name req = Some h ->
  let sess := trackCommand (Name req) <$> client req in
  let r := ServeClient h NewResponder (withClient req sess) app in
  Apply srv req app =
  {| asrv := withInfo srv (onCommand (info srv));
     asession := hsession r <$> sess;
     aapp := happ r;
     areply := Handled (hres r) (herr r) |}.
Proof. intros Hh. unfold Apply. rewrite Hh. reflexivity. Qed.

(** [Apply] on a name that is not in the table. *)
Lemma Apply_not_found srv req app :
  commands srv !! Name req = None ->
  Apply srv req app =
  {| asrv := srv; asession := client req; aapp := app;
     areply := Unknown (UnknownCommand (Name req)) |}.
Proof. intros Hn. unfold Apply. now rewrite Hn. Qed.

(** In a table filled through [Handle], a name with an upper-case ASCII
    letter is never found. *)
Lemma Apply_mixed_case_unknown srv req :
  folded srv -> hasUpper (Name req) = true ->
  commands srv !! Name req = None.
Proof.
  intros Hf Hup.
  destruct (commands srv !! Name req) as [h|] eqn:Hh; [|reflexivity].
  rewrite Hf in Hup by (now rewrite Hh). discriminate.
Qed.

(** The session behind the request is still there after [Apply]. *)
Lemma Apply_session srv req app c :
  client req = Some c -> is_Some (asession (Apply srv req app)).
Proof.
  intros Hc. unfold Apply.
  destruct (commands srv !! Name req); simpl; rewrite Hc; simpl; eauto.
Qed.

(** C2, as amended: a call of [Apply] adds one to the counter of commands
    dispatched when the name of the request is in the command table, and
    leaves the counter as it was when the lookup fails. *)
Theorem Apply_counts_found_commands srv req app :
  commandsProcessed (info (asrv (Apply srv req app))) =
  (commandsProcessed (info srv) +
   match commands srv !! Name req with
   | Some _ => 1
   | None => 0
   end)%N.
Proof.
  unfold Apply. destruct (commands srv !! Name req); simpl; [reflexivity|].
  now rewrite N.add_0_r.
Qed.

(** C3, as amended: in a server filled through [Handle], take a handler
    registered under some name and not replaced by a later registration
    under a name that [strings.ToLower] folds to the same key.  For a
    request whose name differs from the registered name only in letter
    case and is itself in lower case, [Apply] runs that handler: the
    reply, the error and the updates are the handler's.  And since
    [Apply] looks the name up as the request carries it, a request whose
    name has an upper-case ASCII letter is not found: it gets the
    unknown-command error and nothing changes. *)
Theorem Apply_resolves_lower_case_name cfg
    (regs1 : list (string * Handler App)) name h
    (regs2 : list (string * Handler App)) req app :
  (forall r, r ∈ regs2 -> ToLower r.1 <> ToLower name) ->
  let srv := registerAll (NewServer cfg) (regs1 ++ (name, h) :: regs2) in
  (ToLower (Name req) = ToLower name ->
   ToLower (Name req) = Name req ->
   let sess := trackCommand (Name req) <$> client req in
   let r := ServeClient h NewResponder (withClient req sess) app in
   Apply srv req app =
   {| asrv := withInfo srv (onCommand (info srv));
      asession := hsession r <$> sess;
      aapp := happ r;
      areply := Handled (hres r) (herr r) |}) /\
  (hasUpper (Name req) = true ->
   Apply srv req app =
   {| asrv := srv; asession := client req; aapp := app;
      areply := Unknown (UnknownCommand (Name req)) |}).
Proof.
  intros Hlater srv. split.
  - intros Hcase Hlow. apply Apply_found.
    rewrite <- Hlow, Hcase. unfold srv.
    rewrite registerAll_app. cbn [registerAll fold_left fst snd].
    fold (registerAll (Handle (registerAll (NewServer cfg) regs1) name h) regs2).
    rewrite (registerAll_lookup_other _ regs2 _ Hlater).
    apply Handle_lookup.
  - intros Hup. apply Apply_not_found.
    apply (Apply_mixed_case_unknown srv req);
      [apply registerAll_folded, NewServer_folded | exact Hup].
Qed.

(** C10: [Apply] on a request whose name is not registered returns a nil
    responder with the unknown-command error and changes nothing: the
    server, with its counter of commands dispatched, the session behind
    the request, with its per-command counters, and the handlers' state
    are as they were. *)
Theorem Apply_unknown_changes_nothing srv req app :
  commands srv !! Name req = None ->
  replyRes (areply (Apply srv req app)) = None /\
  replyErr (areply (Apply srv req app)) = Some (UnknownCommand (Name req)) /\
  asrv (Apply srv req app) = srv /\
  asession (Apply srv req app) = client req /\
  aapp (Apply srv req app) = app.
Proof. intros Hn. rewrite (Apply_not_found _ _ _ Hn). repeat split. Qed.

End DispatchFacts.

(** C2, as stated, fails: a call whose lookup fails does not count. *)
Lemma Apply_unknown_not_counted :
  let a := Apply (NewServer (App := unit) cfg0) (call "nope") tt in
  areply a = Unknown (UnknownCommand "nope") /\
  commandsProcessed (info (asrv a)) <>
  (commandsProcessed (info (NewServer (App := unit) cfg0)) + 1)%N.
Proof. vm_compute. split; [reflexivity | discriminate]. Qed.

(** C3, as stated, fails: [ping] is registered, and a request named
    "PING", which differs from "ping" only in letter case, is unknown. *)
Lemma Apply_upper_case_unknown :
  let srv := Handle (NewServer (App := unit) cfg0) "ping" ping in
  ToLower "PING" = ToLower "ping" /\
  commands srv !! ToLower "ping" = Some ping /\
  areply (Apply srv (call "PING") tt) = Unknown (UnknownCommand "PING").
Proof. vm_compute. repeat split. Qed.

Lemma Apply_resolves_lower_case_name_witness :
  ToLower "ping" = ToLower "PiNg" /\
  areply (Apply (registerAll (NewServer (App := unit) cfg0)
                   ([("quit", bye)] ++ ("PiNg", ping) :: [("half", half)]))
                (call "ping") tt)
  = Handled (Fragments ["PONG"]) None /\
  areply (Apply (registerAll (NewServer (App := unit) cfg0)
                   ([("quit", bye)] ++ ("PiNg", ping) :: [("half", half)]))
                (call "Ping") tt)
  = Unknown (UnknownCommand "Ping").
Proof.
  split; [reflexivity|].
  destruct (Apply_resolves_lower_case_name cfg0 [("quit", bye)] "PiNg" ping
              [("half", half)] (call "ping") tt) as [Hfound _].
  { intros r Hr. apply elem_of_cons in Hr as [->|Hr];
      [vm_compute; discriminate | now apply elem_of_nil in Hr]. }
  destruct (Apply_resolves_lower_case_name cfg0 [("quit", bye)] "PiNg" ping
              [("half", half)] (call "Ping") tt) as [_ Hupper].
  { intros r Hr. apply elem_of_cons in Hr as [->|Hr];
      [vm_compute; discriminate | now apply elem_of_nil in Hr]. }
  split.
  - rewrite Hfound; reflexivity.
  - rewrite Hupper; reflexivity.
Defined.

Lemma Apply_unknown_changes_nothing_witness :
  asrv (Apply sample (withClient (call "nope") (Some session0)) tt) = sample /\
  asession (Apply sample (withClient (call "nope") (Some session0)) tt) = Some session0.
Proof.
  assert (H : commands sample !! Name (withClient (call "nope") (Some session0)) = None)
    by (vm_compute; reflexivity).
  destruct (Apply_unknown_changes_nothing sample _ tt H) as (_ & _ & Hs & Hc & _).
  split; assumption.
Defined.

(** ** Shutdown *)

Section CloseFacts.

Context {App : Type}.
Implicit Types (srv : Server App).

(** The state [Close] leaves: no listener, no session. *)
Lemma Close_state srv :
  tcp (Close srv).1 = None /\ unix (Close srv).1 = None /\
  clients (Close srv).1 = ∅.
Proof. unfold Close. simpl. repeat split. Qed.

(** The error [Close] returns: when closing a listener failed, whatever
    clearing the registry reported, nil included; otherwise nil. *)
Lemma Close_error srv :
  (Close srv).2 =
  match closeListener (unix srv) (closeListener (tcp srv) None) with
  | Some _ => (clients_Clear (clients srv)).2
  | None => None
  end.
Proof.
  unfold Close. simpl.
  now destruct (closeListener (unix srv) (closeListener (tcp srv) None)).
Qed.

(** X1: a second [Close] changes nothing and reports no error. *)
Lemma Close_idempotent srv :
  Close (Close srv).1 = ((Close srv).1, None).
Proof.
  assert (Hs : (Close srv).1 = withClients (withUnix (withTcp srv None) None) ∅)
    by reflexivity.
  rewrite Hs. unfold Close. simpl. reflexivity.
Qed.

End CloseFacts.

(** C7 on the code: a server with a TCP listener whose close fails and
    with no session.  [Close] returns nil: the error of the listener is
    replaced by the nil result of clearing the registry. *)
Theorem Close_loses_listener_error :
  closeListener (tcp listening) None = Some (OtherError "close tcp: broken") /\
  Close listening = (NewServer cfg0, None).
Proof. split; [reflexivity|]. vm_compute. reflexivity. Qed.

(** ** The socket path *)

Section ListenFacts.

Context {App : Type}.
Implicit Types (srv : Server App) (os : OS).

(** C8, as amended: when [os.Stat] can describe what sits at the socket
    path: a file that is not a directory, a stale socket or a regular
    file alike, is removed before binding, the error of a failed removal
    being returned without binding, and [listenUnix] then returns the
    listener bound at the freed path, or the error of the bind; a
    directory is not removed, and [listenUnix] fails with the error of
    the bind. *)
Theorem listenUnix_frees_the_path srv os f :
  files os !! Socket (config srv) = Some f ->
  statErr f = None ->
  listenUnix srv os =
  if bool_decide (kind f = Directory)
  then Returned (os, None, Some ErrAddrInUse)
  else
    match removeErr f with
    | Some e => Returned (os, None, Some e)
    | None =>
        match bindErr os (Socket (config srv)) with
        | Some e =>
            Returned ({| files := delete (Socket (config srv)) (files os);
                         bindErr := bindErr os |}, None, Some e)
        | None =>
            Returned ({| files := <[Socket (config srv) := mkFile SocketFile None None]>
                                    (delete (Socket (config srv)) (files os));
                         bindErr := bindErr os |},
                      Some (mkListener None), None)
        end
    end.
Proof.
  intros Hf Hstat. unfold listenUnix, os_Stat. rewrite Hf, Hstat. simpl.
  destruct (bool_decide (kind f = Directory)); simpl.
  - unfold net_Listen_unix. now rewrite Hf.
  - unfold os_RemoveAll. rewrite Hf.
    destruct (removeErr f) as [e|]; [reflexivity|].
    unfold net_Listen_unix. simpl. rewrite lookup_delete_eq.
    now destruct (bindErr os (Socket (config srv))).
Qed.

End ListenFacts.

(** C8, as stated, fails: with a regular file at the socket path,
    [listenUnix] does not fail: it removes the file and returns a
    listener. *)
Lemma listenUnix_removes_regular_file :
  files (occupied RegularFile) !! Socket cfg0 = Some (mkFile RegularFile None None) /\
  exists os', listenUnix (NewServer (App := unit) cfg0) (occupied RegularFile)
              = Returned (os', Some (mkListener None), None).
Proof. split; [vm_compute; reflexivity|]. eexists. vm_compute. reflexivity. Qed.

Lemma listenUnix_frees_the_path_witness :
  (exists os', listenUnix (NewServer (App := unit) cfg0) (occupied SocketFile)
               = Returned (os', Some (mkListener None), None)) /\
  listenUnix (NewServer (App := unit) cfg0) (occupied Directory)
  = Returned (occupied Directory, None, Some ErrAddrInUse).
Proof.
  split.
  - rewrite (listenUnix_frees_the_path (NewServer (App := unit) cfg0)
               (occupied SocketFile) (mkFile SocketFile None None));
      [eexists; reflexivity | vm_compute; reflexivity | reflexivity].
  - rewrite (listenUnix_frees_the_path (NewServer (App := unit) cfg0)
               (occupied Directory) (mkFile Directory None None));
      [reflexivity | vm_compute; reflexivity | reflexivity].
Defined.

(** ** One turn of the serve loop *)

Section TurnFacts.

Context {App : Type}.
Implicit Types (srv : Server App) (st : Loop App) (req : Request) (app : App).

(** [Apply] touches the statistics only. *)
Lemma Apply_frame srv req app :
  config (asrv (Apply srv req app)) = config srv /\
  commands (asrv (Apply srv req app)) = commands srv /\
  tcp (asrv (Apply srv req app)) = tcp srv /\
  unix (asrv (Apply srv req app)) = unix srv /\
  clients (asrv (Apply srv req app)) = clients srv.
Proof. unfold Apply. destruct (commands srv !! Name req); simpl; repeat split. Qed.

Lemma writeError_EOF conn : writeError conn EOF = (conn, []).
Proof. reflexivity. Qed.

Lemma writeError_other conn err :
  err <> EOF ->
  writeError conn err =
  ((WriteTo (Failure err) conn).1, [EvWrite (Failure err) (writes conn (wpos conn))]).
Proof. intros Hne. unfold writeError. now rewrite decide_False by assumption. Qed.

(** The turn when decoding fails. *)
Lemma serveIter_decode_failed st err :
  (ParseRequest (lconn st)).1 = inr err ->
  serveIter st =
  (mkLoop (lsrv st) (lclient st)
          (writeError (ParseRequest (lconn st)).2 err).1 (lapp st),
   armDeadline (config (lsrv st)) ++
     EvParse (inr err) :: (writeError (ParseRequest (lconn st)).2 err).2,
   Some ExitDecode).
Proof.
  intros Hr. unfold serveIter.
  destruct (ParseRequest (lconn st)) as [r c1]. simpl in *. subst r.
  now destruct (writeError c1 err).
Qed.

(** The turn when [Apply] returns an error. *)
Lemma serveIter_failed st req err :
  (ParseRequest (lconn st)).1 = inl req ->
  let a := Apply (lsrv st) (withClient req (Some (lclient st))) (lapp st) in
  replyErr (areply a) = Some err ->
  serveIter st =
  (mkLoop (asrv a) (sessionAfter st req)
          (writeError (ParseRequest (lconn st)).2 err).1 (aapp a),
   armDeadline (config (lsrv st)) ++
     EvParse (inl req) :: (writeError (ParseRequest (lconn st)).2 err).2,
   if isClientError err then None else Some ExitFatal).
Proof.
  intros Hr a He. unfold serveIter, sessionAfter.
  destruct (ParseRequest (lconn st)) as [r c1]. simpl in *. subst r. fold a.
  destruct (areply a) as [e|res [e|]]; simpl in He; try discriminate;
    injection He as ->; now destruct (writeError c1 err).
Qed.

(** The turn when the handler returns no error. *)
Lemma serveIter_replied st req res :
  (ParseRequest (lconn st)).1 = inl req ->
  let a := Apply (lsrv st) (withClient req (Some (lclient st))) (lapp st) in
  areply a = Handled res None ->
  let out := writes (lconn st) (wpos (lconn st)) in
  serveIter st =
  (mkLoop (asrv a) (sessionAfter st req)
          (WriteTo res (ParseRequest (lconn st)).2).1 (aapp a),
   armDeadline (config (lsrv st)) ++ [EvParse (inl req); EvWrite res out],
   match out with
   | Some _ => Some ExitWrite
   | None => if quit (sessionAfter st req) then Some ExitQuit else None
   end).
Proof.
  intros Hr a He out. unfold serveIter, sessionAfter.
  unfold ParseRequest in *. simpl in Hr. rewrite Hr. fold a. rewrite He.
  reflexivity.
Qed.

(** Every turn starts by arming the deadline and decoding. *)
Lemma serveIter_trace_head st :
  exists tr',
    (serveIter st).1.2 =
    armDeadline (config (lsrv st)) ++
      EvParse (reads (lconn st) (rpos (lconn st))) :: tr'.
Proof.
  unfold serveIter, ParseRequest.
  destruct (reads (lconn st) (rpos (lconn st))) as [req|e].
  - destruct (areply _) as [e|res [e|]].
    + destruct (writeError _ e). eexists. reflexivity.
    + destruct (writeError _ e). eexists. reflexivity.
    + eexists. reflexivity.
  - destruct (writeError _ e). eexists. reflexivity.
Qed.

Lemma serveLoop_trace_head fuel st :
  exists tr',
    (serveLoop (S fuel) st).1.2 =
    armDeadline (config (lsrv st)) ++
      EvParse (reads (lconn st) (rpos (lconn st))) :: tr'.
Proof.
  destruct (serveIter_trace_head st) as [tr' Htr']. cbn [serveLoop].
  destruct (serveIter st) as [[st1 t1] [why|]]; simpl in Htr'; subst t1.
  - exists tr'. reflexivity.
  - destruct (serveLoop fuel st1) as [[st2 tr2] s]. exists (tr' ++ tr2).
    simpl. now rewrite <- app_assoc.
Qed.

(** C1, as amended: when the handler of a request returns a non-nil
    error, the turn writes an error reply built from that error alone, a
    fresh responder holding the error, and nothing at all when the error
    is the end-of-stream value; the responder the handler filled is not
    handed to the connection. *)
Theorem serveIter_handler_error st req res err :
  (ParseRequest (lconn st)).1 = inl req ->
  areply (Apply (lsrv st) (withClient req (Some (lclient st))) (lapp st))
  = Handled res (Some err) ->
  exists st',
    serveIter st =
    (st',
     armDeadline (config (lsrv st)) ++
       EvParse (inl req) ::
       (if decide (err = EOF) then []
        else [EvWrite (WriteError err NewResponder)
                      (writes (lconn st) (wpos (lconn st)))]),
     if isClientError err then None else Some ExitFatal).
Proof.
  intros Hr Ha.
  rewrite (serveIter_failed st req err Hr) by now rewrite Ha.
  unfold writeError. destruct (decide (err = EOF)); eexists; reflexivity.
Qed.

(** C4: for a request whose name is not in the command table, [Apply]
    returns the unknown-command error, which is a client error; the turn
    writes the error reply and the loop goes on: the next thing it does
    with the connection is the next decode. *)
Theorem serveIter_unknown_command st req :
  (ParseRequest (lconn st)).1 = inl req ->
  commands (lsrv st) !! Name req = None ->
  let err := UnknownCommand (Name req) in
  let st1 := mkLoop (lsrv st) (lclient st)
               (WriteTo (Failure err) (ParseRequest (lconn st)).2).1 (lapp st) in
  let t1 := turn (config (lsrv st)) req (Failure err)
              (writes (lconn st) (wpos (lconn st))) in
  replyErr (areply (Apply (lsrv st) (withClient req (Some (lclient st))) (lapp st)))
  = Some err /\
  isClientError err = true /\
  serveIter st = (st1, t1, None) /\
  forall fuel, exists st2 tr2 s,
    serveLoop (S (S fuel)) st =
    (st2,
     t1 ++ armDeadline (config (lsrv st)) ++
       EvParse (reads (lconn st) (S (rpos (lconn st)))) :: tr2,
     s).
Proof.
  intros Hr Hn err st1 t1.
  pose proof (Apply_not_found (lsrv st)
                (withClient req (Some (lclient st))) (lapp st) Hn) as Ha.
  assert (He : replyErr (areply (Apply (lsrv st)
                 (withClient req (Some (lclient st))) (lapp st))) = Some err)
    by now rewrite Ha.
  assert (Hit : serveIter st = (st1, t1, None)).
  { rewrite (serveIter_failed st req err Hr) by exact He.
    unfold sessionAfter. rewrite Ha. reflexivity. }
  repeat split; [exact He | exact Hit |].
  intros fuel.
  change (serveLoop (S (S fuel)) st) with
    (let '(st1, tr1, ex) := serveIter st in
     match ex with
     | Some why => (st1, tr1, Exited why)
     | None => let '(st2, tr2, s) := serveLoop (S fuel) st1 in (st2, tr1 ++ tr2, s)
     end).
  rewrite Hit.
  destruct (serveLoop_trace_head fuel st1) as [tr' Htr'].
  destruct (serveLoop (S fuel) st1) as [[st2 tr2] s]. simpl in Htr'.
  exists st2, tr', s. now rewrite Htr'.
Qed.

End TurnFacts.

(** ** Runs of the serve loop *)

Section LoopFacts.

Context {App : Type}.
Implicit Types (srv : Server App) (st : Loop App) (req : Request) (app : App).

(** A turn leaves the server as it was but for the statistics, reads one
    request from the connection, and leaves the peer's script alone. *)
Lemma serveIter_frame st :
  let st1 := (serveIter st).1.1 in
  config (lsrv st1) = config (lsrv st) /\
  clients (lsrv st1) = clients (lsrv st) /\
  commands (lsrv st1) = commands (lsrv st) /\
  transport (lconn st1) = transport (lconn st) /\
  reads (lconn st1) = reads (lconn st) /\
  writes (lconn st1) = writes (lconn st) /\
  rpos (lconn st1) = S (rpos (lconn st)).
Proof.
  unfold serveIter, ParseRequest.
  destruct (reads (lconn st) (rpos (lconn st))) as [req|e].
  - set (a := Apply _ _ _).
    destruct (Apply_frame (lsrv st) (withClient req (Some (lclient st))) (lapp st))
      as (Hc & Hm & _ & _ & Hr). fold a in Hc, Hm, Hr.
    destruct (areply a) as [e|res [e|]];
      try (unfold writeError; destruct (decide (e = EOF)));
      simpl; repeat split; assumption.
  - unfold writeError; destruct (decide (e = EOF)); simpl; repeat split.
Qed.

(** A turn after which the loop goes on: it decoded a request, dispatched
    it, and wrote the answer. *)
Lemma serveIter_continue st st1 t1 :
  serveIter st = (st1, t1, None) ->
  exists req,
    (ParseRequest (lconn st)).1 = inl req /\
    let a := Apply (lsrv st) (withClient req (Some (lclient st))) (lapp st) in
    lsrv st1 = asrv a /\ lclient st1 = sessionAfter st req /\ lapp st1 = aapp a /\
    t1 = turn (config (lsrv st)) req (replyTo a) (writes (lconn st) (wpos (lconn st))) /\
    wpos (lconn st1) = S (wpos (lconn st)).
Proof.
  intros Hit. destruct ((ParseRequest (lconn st)).1) as [req|e] eqn:Hr.
  - exists req. split; [reflexivity|]. intros a. unfold replyTo.
    destruct (areply a) as [e|res [e|]] eqn:Ha.
    + rewrite (serveIter_failed st req e Hr) in Hit by (fold a; now rewrite Ha).
      fold a in Hit. destruct e; try discriminate.
      rewrite writeError_other in Hit by discriminate.
      injection Hit as <- <-. repeat split.
    + rewrite (serveIter_failed st req e Hr) in Hit by (fold a; now rewrite Ha).
      fold a in Hit. destruct e; try discriminate.
      rewrite writeError_other in Hit by discriminate.
      injection Hit as <- <-. repeat split.
    + rewrite (serveIter_replied st req res Hr Ha) in Hit. fold a in Hit.
      destruct (writes (lconn st) (wpos (lconn st))); [discriminate|].
      destruct (quit _); [discriminate|].
      injection Hit as <- <-. repeat split.
  - rewrite (serveIter_decode_failed st e Hr) in Hit. discriminate.
Qed.


(** A turn that decoded the end of the stream wrote nothing and ended the
    loop. *)
Lemma serveIter_EOF st st1 t1 ex :
  serveIter st = (st1, t1, ex) ->
  EvParse (inr EOF) ∈ t1 ->
  t1 = armDeadline (config (lsrv st)) ++ [EvParse (inr EOF)] /\
  ex = Some ExitDecode /\ wpos (lconn st1) = wpos (lconn st).
Proof.
  intros Hit Hin.
  assert (Harm : EvParse (inr EOF) ∉ armDeadline (config (lsrv st))).
  { unfold armDeadline. destruct (0 <? _)%Z; intros H; elem_cases H. }
  assert (Hwe : forall c e, EvParse (inr EOF) ∉ (writeError c e).2).
  { intros c e. unfold writeError.
    destruct (decide (e = EOF)); intros H; elem_cases H. }
  destruct ((ParseRequest (lconn st)).1) as [req|e] eqn:Hr.
  - exfalso.
    set (a := Apply (lsrv st) (withClient req (Some (lclient st))) (lapp st)).
    destruct (areply a) as [e|res [e|]] eqn:Ha.
    + rewrite (serveIter_failed st req e Hr) in Hit by (fold a; now rewrite Ha).
      injection Hit as _ <- _.
      apply elem_of_app in Hin as [Hin|Hin]; [now apply Harm|].
      apply elem_of_cons in Hin as [Hin|Hin]; [discriminate|].
      now apply Hwe in Hin.
    + rewrite (serveIter_failed st req e Hr) in Hit by (fold a; now rewrite Ha).
      injection Hit as _ <- _.
      apply elem_of_app in Hin as [Hin|Hin]; [now apply Harm|].
      apply elem_of_cons in Hin as [Hin|Hin]; [discriminate|].
      now apply Hwe in Hin.
    + rewrite (serveIter_replied st req res Hr Ha) in Hit.
      injection Hit as _ <- _.
      apply elem_of_app in Hin as [Hin|Hin]; [now apply Harm|].
      elem_cases Hin.
  - rewrite (serveIter_decode_failed st e Hr) in Hit.
    injection Hit as <- <- <-.
    assert (e = EOF) as ->.
    { apply elem_of_app in Hin as [Hin|Hin]; [now apply Harm in Hin|].
      apply elem_of_cons in Hin as [Hin|Hin]; [congruence|].
      now apply Hwe in Hin. }
    rewrite writeError_EOF. repeat split.
Qed.

(** The run of a loop that returned: some turns after which the loop went
    on, then the turn that ended it. *)
Lemma serveLoop_exited fuel st st' tr why :
  serveLoop fuel st = (st', tr, Exited why) ->
  exists n st0 tr0 t1,
    serveLoop n st = (st0, tr0, Running) /\
    serveIter st0 = (st', t1, Some why) /\
    tr = tr0 ++ t1.
Proof.
  revert st st' tr. induction fuel as [|fuel IH]; intros st st' tr Hl.
  - discriminate.
  - cbn [serveLoop] in Hl. destruct (serveIter st) as [[st1 t1] [w|]] eqn:Hit.
    + injection Hl as <- <- <-. exists 0, st, [], t1. repeat split. exact Hit.
    + destruct (serveLoop fuel st1) as [[st2 tr2] s] eqn:Hl2.
      injection Hl as <- <- ->.
      destruct (IH _ _ _ Hl2) as (n & st0 & tr0 & t2 & Hn & Hlast & ->).
      exists (S n), st0, (t1 ++ tr0), t2. repeat split.
      * cbn [serveLoop]. now rewrite Hit, Hn.
      * exact Hlast.
      * now rewrite app_assoc.
Qed.

(** The server and the peer's script along a run. *)
Lemma serveLoop_frame fuel st :
  let st' := (serveLoop fuel st).1.1 in
  config (lsrv st') = config (lsrv st) /\
  clients (lsrv st') = clients (lsrv st) /\
  transport (lconn st') = transport (lconn st).
Proof.
  revert st. induction fuel as [|fuel IH]; intros st; [repeat split|].
  cbn [serveLoop]. pose proof (serveIter_frame st) as (Hc & Hm & _ & Ht & _).
  destruct (serveIter st) as [[st1 t1] [w|]]; simpl in *.
  - repeat split; assumption.
  - specialize (IH st1). destruct (serveLoop fuel st1) as [[st2 tr2] s].
    simpl in *. destruct IH as (Hc' & Hm' & Ht').
    repeat split; congruence.
Qed.

(** While the loop goes on, no decode has failed. *)
Lemma serveLoop_running_parses n st st' tr e :
  serveLoop n st = (st', tr, Running) -> EvParse (inr e) ∉ tr.
Proof.
  revert st st' tr. induction n as [|n IH]; intros st st' tr Hl.
  - injection Hl as _ <-. intros H. now apply elem_of_nil in H.
  - cbn [serveLoop] in Hl. destruct (serveIter st) as [[st1 t1] [w|]] eqn:Hit;
      [discriminate|].
    destruct (serveLoop n st1) as [[st2 tr2] s] eqn:Hl2.
    injection Hl as <- <- ->.
    destruct (serveIter_continue _ _ _ Hit) as (req & _ & Hrest).
    destruct Hrest as (_ & _ & _ & -> & _).
    specialize (IH _ _ _ Hl2). intros H.
    apply elem_of_app in H as [H|H]; [|now apply IH in H].
    unfold turn, armDeadline in H. destruct (0 <? _)%Z; elem_cases H.
Qed.

End LoopFacts.

(** ** Pipelining *)

Section PipelineFacts.

Context {App : Type}.
Implicit Types (srv : Server App) (st : Loop App) (req : Request) (app : App).

Lemma written_app (tr1 tr2 : list Event) :
  written (tr1 ++ tr2) = written tr1 ++ written tr2.
Proof.
  induction tr1 as [|e tr1 IH]; [reflexivity|].
  destruct e; simpl; now rewrite IH.
Qed.

Lemma written_turn cfg req res out : written (turn cfg req res out) = [res].
Proof. unfold turn, armDeadline. now destruct (0 <? _)%Z. Qed.

Lemma answers_length srv cl app (reqs : list Request) :
  length (answers srv cl app reqs) = length reqs.
Proof.
  revert srv cl app. induction reqs as [|req reqs IH]; intros; simpl;
    [reflexivity | now rewrite IH].
Qed.

(** A turn with a benign handler, or with no handler at all, on a
    connection whose writes succeed: the loop goes on. *)
Lemma serveIter_benign st req :
  (forall k h, commands (lsrv st) !! k = Some h -> benign h) ->
  quit (lclient st) = false ->
  writes (lconn st) (wpos (lconn st)) = None ->
  (ParseRequest (lconn st)).1 = inl req ->
  exists st1 t1, serveIter st = (st1, t1, None) /\ quit (lclient st1) = false.
Proof.
  intros Hb Hq Hw Hr.
  set (rq := withClient req (Some (lclient st))).
  destruct (commands (lsrv st) !! Name req) as [h|] eqn:Hk.
  - pose proof (Apply_found (lsrv st) rq (lapp st) h Hk) as Ha.
    cbv zeta in Ha. simpl in Ha.
    set (r := ServeClient h NewResponder
                (withClient rq (Some (trackCommand (Name req) (lclient st))))
                (lapp st)) in Ha.
    destruct (Hb _ _ Hk NewResponder
                (withClient rq (Some (trackCommand (Name req) (lclient st))))
                (lapp st)) as [Herr Hquit].
    fold r in Herr, Hquit.
    assert (Hs : quit (sessionAfter st req) = false).
    { unfold sessionAfter. fold rq. rewrite Ha. simpl. now rewrite Hquit. }
    destruct (herr r) as [e|] eqn:He.
    + rewrite (serveIter_failed st req e Hr) by (fold rq; now rewrite Ha).
      rewrite (Herr e eq_refl). do 2 eexists. split; [reflexivity | exact Hs].
    + rewrite (serveIter_replied st req (hres r) Hr)
        by (fold rq; now rewrite Ha).
      rewrite Hw, Hs. do 2 eexists. split; [reflexivity | exact Hs].
  - pose proof (Apply_not_found (lsrv st) rq (lapp st) Hk) as Ha.
    rewrite (serveIter_failed st req (UnknownCommand (Name req)) Hr)
      by (fold rq; now rewrite Ha).
    do 2 eexists. split; [reflexivity|].
    simpl. unfold sessionAfter. fold rq. now rewrite Ha.
Qed.

(** X14: with handlers that return client errors only and leave the quit
    flag alone, on a connection whose writes succeed, N well-formed
    requests leave the loop running: the connection stays open. *)
Lemma serveLoop_stays_open (reqs : list Request) st :
  (forall k h, commands (lsrv st) !! k = Some h -> benign h) ->
  quit (lclient st) = false ->
  (forall k, writes (lconn st) k = None) ->
  (forall i req, reqs !! i = Some req ->
                 reads (lconn st) (rpos (lconn st) + i) = inl req) ->
  (serveLoop (length reqs) st).2 = Running.
Proof.
  revert st. induction reqs as [|r reqs IH]; intros st Hb Hq Hw Hreads;
    [reflexivity|].
  cbn [length serveLoop].
  assert (Hr : (ParseRequest (lconn st)).1 = inl r).
  { specialize (Hreads 0 r eq_refl). now rewrite Nat.add_0_r in Hreads. }
  destruct (serveIter_benign st r Hb Hq (Hw _) Hr) as (st1 & t1 & Hit & Hq1).
  pose proof (serveIter_frame st) as (_ & _ & Hcmd & _ & Hrd & Hwr & Hrp).
  rewrite Hit in Hcmd, Hrd, Hwr, Hrp. simpl in Hcmd, Hrd, Hwr, Hrp.
  rewrite Hit. specialize (IH st1).
  destruct (serveLoop (length reqs) st1) as [[st2 tr2] s]. simpl in *.
  apply IH.
  - intros k h. rewrite Hcmd. apply Hb.
  - exact Hq1.
  - intros k. rewrite Hwr. apply Hw.
  - intros i req Hi. rewrite Hrd, Hrp. specialize (Hreads (S i) req Hi).
    now rewrite Nat.add_succ_r in Hreads.
Qed.

(** C5, as amended: for every sequence of N well-formed pipelined requests
    arriving on one connection, as long as none of them ends the loop (a
    handler error that is no client error, a failed write of a reply, the
    quit flag), the serve loop takes them in arrival order and makes
    exactly N writes, the answers to the requests in the same order, each
    write made before the next decode. *)
Theorem serveLoop_pipelined (reqs : list Request) st st' tr :
  (forall i req, reqs !! i = Some req ->
                 reads (lconn st) (rpos (lconn st) + i) = inl req) ->
  serveLoop (length reqs) st = (st', tr, Running) ->
  tr = turns (config (lsrv st)) reqs
             (answers (lsrv st) (lclient st) (lapp st) reqs)
             (outcomes (writes (lconn st)) (wpos (lconn st)) (length reqs)) /\
  written tr = answers (lsrv st) (lclient st) (lapp st) reqs /\
  length (written tr) = length reqs.
Proof.
  revert st st' tr. induction reqs as [|r reqs IH]; intros st st' tr Hreads Hl.
  - injection Hl as _ <-. repeat split.
  - cbn [length serveLoop] in Hl.
    destruct (serveIter st) as [[st1 t1] [w|]] eqn:Hit; [discriminate|].
    destruct (serveLoop (length reqs) st1) as [[st2 tr2] s] eqn:Hl2.
    injection Hl as <- <- ->.
    pose proof (serveIter_frame st) as (Hcfg & _ & _ & _ & Hrd & Hwr & Hrp).
    rewrite Hit in Hcfg, Hrd, Hwr, Hrp. simpl in Hcfg, Hrd, Hwr, Hrp.
    destruct (serveIter_continue _ _ _ Hit) as (req & Hreq & Hrest).
    destruct Hrest as (Hsrv & Hcl & Happ & -> & Hwp).
    assert (req = r) as ->.
    { specialize (Hreads 0 r eq_refl). rewrite Nat.add_0_r in Hreads.
      unfold ParseRequest in Hreq. simpl in Hreq. congruence. }
    destruct (IH st1 st2 tr2) as (Htr & Hw & Hlen).
    { intros i req Hi. rewrite Hrd, Hrp. specialize (Hreads (S i) req Hi).
      now rewrite Nat.add_succ_r in Hreads. }
    { exact Hl2. }
    rewrite Hcfg, Hsrv, Hcl, Happ, Hwr, Hwp in Htr.
    rewrite Hsrv, Hcl, Happ in Hw.
    assert (Hall : written (turn (config (lsrv st)) r
                     (replyTo (Apply (lsrv st) (withClient r (Some (lclient st))) (lapp st)))
                     (writes (lconn st) (wpos (lconn st))) ++ tr2)
                   = answers (lsrv st) (lclient st) (lapp st) (r :: reqs)).
    { rewrite written_app, written_turn, Hw. reflexivity. }
    split; [|split].
    + rewrite Htr. reflexivity.
    + exact Hall.
    + rewrite Hall. apply answers_length.
Qed.

End PipelineFacts.

(** C5, as stated, fails: two well-formed requests are pipelined, the
    first to the handler that sets the quit flag; one reply is written and
    the second request is never decoded. *)
Lemma serveClient_quit_cuts_pipeline :
  serveClient 5 sample session0 (peer [call "quit"; call "ping"]) tt =
  (mkLoop (withClients
             (withInfo sample {| connections := 1; commandsProcessed := 1 |}) ∅)
          {| id := 7; quit := true; cmdCount := 1; lastCmd := "quit" |}
          {| transport := transport (peer []);
             reads := reads (peer [call "quit"; call "ping"]);
             writes := writes (peer []);
             rpos := 1; wpos := 1 |}
          tt,
   [EvParse (inl (call "quit")); EvWrite (Fragments ["OK"]) None; EvClose 7 None],
   Exited ExitQuit).
Proof. vm_compute. reflexivity. Qed.

(** C1, as stated, fails: the handler of "half" writes a fragment and
    returns a client error; the error reply alone is written, the
    fragment never reaches the connection. *)
Lemma serveClient_drops_fragments :
  areply (Apply sample (withClient (call "half") (Some session0)) tt)
  = Handled (Fragments ["half"]) (Some (ClientError "boom")) /\
  (serveClient 5 sample session0 (peer [call "half"]) tt).1.2 =
  [EvParse (inl (call "half")); EvWrite (Failure (ClientError "boom")) None;
   EvParse (inr EOF); EvClose 7 None].
Proof. split; vm_compute; reflexivity. Qed.

(** ** The end of a session *)

Section SessionFacts.

Context {App : Type}.
Implicit Types (srv : Server App) (st : Loop App) (req : Request) (app : App).

(** An element that occurs once splits a list in one way only. *)
Lemma split_at_unique {A : Type} (x : A) (l1 l2 k1 k2 : list A) :
  x ∉ k1 -> x ∉ k2 -> l1 ++ x :: l2 = k1 ++ x :: k2 -> l1 = k1 /\ l2 = k2.
Proof.
  revert l1. induction k1 as [|k k1 IH]; intros l1 H1 H2 Heq.
  - destruct l1 as [|y l1]; simpl in Heq.
    + injection Heq as <-. split; reflexivity.
    + injection Heq as -> <-. exfalso. apply H2.
      apply elem_of_app. right. apply elem_of_cons. now left.
  - destruct l1 as [|y l1]; simpl in Heq.
    + injection Heq as <- _. exfalso. apply H1. apply elem_of_cons. now left.
    + injection Heq as -> Heq. destruct (IH l1) as [-> ->]; try assumption.
      * intros Hin. apply H1. apply elem_of_cons. now right.
      * split; reflexivity.
Qed.

(** The run of a session that returned: the keep-alive, the run of the
    loop, and the close of the transport by the deferred deregistration. *)
Lemma serveClient_exited fuel srv cl conn app st tr why :
  serveClient fuel srv cl conn app = (st, tr, Exited why) ->
  exists st' trl,
    serveLoop fuel
      (mkLoop (withInfo (withClients srv
                           (clients_Put (id cl) (transport conn) (clients srv)))
                        (onConnect (info srv)))
              cl conn app) = (st', trl, Exited why) /\
    tr = keepAlive (config srv) (transport conn) ++ trl ++
         [EvClose (id cl) (connClose (transport conn))] /\
    lclient st = lclient st' /\
    lconn st = lconn st'.
Proof.
  unfold serveClient. intros Hs.
  set (st0 := mkLoop _ cl conn app) in *.
  pose proof (serveLoop_frame fuel st0) as (_ & Hm & _).
  destruct (serveLoop fuel st0) as [[st' trl] [|w]] eqn:Hl; [discriminate|].
  simpl in Hm. unfold deregister, clients_Close in Hs. rewrite Hm in Hs.
  unfold st0, clients_Put in Hs. simpl in Hs.
  rewrite lookup_insert_eq in Hs.
  injection Hs as <- <- <-. exists st', trl. repeat split.
Qed.

(** A run of the loop that goes on for some turns and whose next turn
    ends it. *)
Lemma serveLoop_last_turn n st st0 tr0 st1 t1 why fuel :
  serveLoop n st = (st0, tr0, Running) ->
  serveIter st0 = (st1, t1, Some why) ->
  n < fuel ->
  serveLoop fuel st = (st1, tr0 ++ t1, Exited why).
Proof.
  revert st tr0 fuel. induction n as [|n IH]; intros st tr0 fuel Hrun Hit Hn.
  - injection Hrun as <- <-. destruct fuel as [|fuel]; [lia|].
    cbn [serveLoop]. now rewrite Hit.
  - destruct fuel as [|fuel]; [lia|]. cbn [serveLoop] in *.
    destruct (serveIter st) as [[sa ta] [w|]]; [discriminate|].
    destruct (serveLoop n sa) as [[sb tb] s] eqn:Hb.
    injection Hrun as -> <- ->.
    rewrite (IH sa tb fuel Hb Hit) by lia.
    now rewrite app_assoc.
Qed.

(** [serveClient] in terms of the state in which it enters its loop. *)
Lemma serveClient_startLoop fuel srv cl conn app :
  serveClient fuel srv cl conn app =
  let '(st, tr, s) := serveLoop fuel (startLoop srv cl conn app) in
  match s with
  | Running => (st, keepAlive (config srv) (transport conn) ++ tr, Running)
  | Exited why =>
      let '(srv', trc) := deregister (id cl) (lsrv st) in
      (mkLoop srv' (lclient st) (lconn st) (lapp st),
       keepAlive (config srv) (transport conn) ++ tr ++ trc, Exited why)
  end.
Proof. reflexivity. Qed.

(** The session whose loop goes on for some turns and whose next turn
    ends it: what [serveClient] did on the connection, and how it ended. *)
Lemma serveClient_last_turn fuel srv cl conn app n st0 tr0 st1 t1 why :
  serveLoop n (startLoop srv cl conn app) = (st0, tr0, Running) ->
  serveIter st0 = (st1, t1, Some why) ->
  n < fuel ->
  (serveClient fuel srv cl conn app).1.2 =
    keepAlive (config srv) (transport conn) ++ (tr0 ++ t1) ++
    [EvClose (id cl) (connClose (transport conn))] /\
  (serveClient fuel srv cl conn app).2 = Exited why /\
  config (lsrv st0) = config srv.
Proof.
  intros Hrun Hit Hn.
  pose proof (serveLoop_last_turn _ _ _ _ _ _ _ _ Hrun Hit Hn) as Hl.
  pose proof (serveLoop_frame fuel (startLoop srv cl conn app)) as (_ & Hm & _).
  pose proof (serveLoop_frame n (startLoop srv cl conn app)) as (Hc & _).
  rewrite Hrun in Hc. cbn [fst snd] in Hc.
  rewrite Hl in Hm. cbn [fst snd] in Hm.
  rewrite serveClient_startLoop, Hl.
  unfold deregister, clients_Close. rewrite Hm.
  unfold startLoop, clients_Put. cbn [lsrv clients withInfo withClients].
  rewrite lookup_insert_eq. repeat split. exact Hc.
Qed.

(** The session that returned: the turns after which its loop went on,
    and the turn that ended it. *)
Lemma serveClient_exited_turn fuel srv cl conn app st tr why :
  serveClient fuel srv cl conn app = (st, tr, Exited why) ->
  exists n st0 tr0 st1 t1,
    serveLoop n (startLoop srv cl conn app) = (st0, tr0, Running) /\
    serveIter st0 = (st1, t1, Some why) /\
    tr = keepAlive (config srv) (transport conn) ++ (tr0 ++ t1) ++
         [EvClose (id cl) (connClose (transport conn))] /\
    lclient st = lclient st1 /\
    config (lsrv st0) = config srv.
Proof.
  intros Hs.
  destruct (serveClient_exited _ _ _ _ _ _ _ _ Hs) as (st' & trl & Hl & -> & Hcl & _).
  fold (startLoop srv cl conn app) in Hl.
  destruct (serveLoop_exited _ _ _ _ _ Hl) as (n & st0 & tr0 & t1 & Hrun & Hit & ->).
  pose proof (serveLoop_frame n (startLoop srv cl conn app)) as (Hc & _).
  rewrite Hrun in Hc. cbn [fst snd] in Hc.
  exists n, st0, tr0, st', t1. repeat split; assumption.
Qed.


(** C9: when a decode yields the end of the stream, the session ends
    there and nothing is written: the only call still made on the
    connection after that decode is the close of the transport. *)
Theorem serveClient_EOF_silent fuel srv cl conn app st tr s tr0 tr1 :
  serveClient fuel srv cl conn app = (st, tr, s) ->
  tr = tr0 ++ EvParse (inr EOF) :: tr1 ->
  s = Exited ExitDecode /\
  tr1 = [EvClose (id cl) (connClose (transport conn))] /\
  written tr1 = [].
Proof.
  intros Hs Htr.
  assert (Hka : EvParse (inr EOF) ∉ keepAlive (config srv) (transport conn)).
  { unfold keepAlive. destruct (0 <? _)%Z; [destruct (isTCP _)|];
      intros Hin; repeat (apply elem_of_cons in Hin as [Hin|Hin]; [discriminate|]);
      now apply elem_of_nil in Hin. }
  destruct s as [|why].
  - exfalso. unfold serveClient in Hs.
    destruct (serveLoop fuel _) as [[st' trl] [|w]] eqn:Hl.
    + injection Hs as _ <-.
      assert (Hin : EvParse (inr EOF) ∈ keepAlive (config srv) (transport conn) ++ trl).
      { simpl in Htr. rewrite Htr. apply elem_of_app. right.
        apply elem_of_cons. now left. }
      apply elem_of_app in Hin as [Hin|Hin]; [now apply Hka|].
      now apply (serveLoop_running_parses _ _ _ _ EOF Hl).
    + destruct (deregister _ _). discriminate.
  - destruct (serveClient_exited _ _ _ _ _ _ _ _ Hs) as (st' & trl & Hl & Heq & _).
    destruct (serveLoop_exited _ _ _ _ _ Hl) as (n & st0 & trA & t1 & Hrun & Hit & ->).
    assert (Hin : EvParse (inr EOF) ∈ t1).
    { assert (Hin : EvParse (inr EOF) ∈ tr)
        by (rewrite Htr; apply elem_of_app; right; apply elem_of_cons; now left).
      rewrite Heq in Hin.
      apply elem_of_app in Hin as [Hin|Hin]; [now apply Hka in Hin|].
      apply elem_of_app in Hin as [Hin|Hin].
      - apply elem_of_app in Hin as [Hin|Hin]; [|exact Hin].
        now apply (serveLoop_running_parses _ _ _ _ EOF Hrun) in Hin.
      - apply elem_of_cons in Hin as [Hin|Hin]; [discriminate|].
        now apply elem_of_nil in Hin. }
    destruct (serveIter_EOF _ _ _ _ Hit Hin) as (-> & Hwhy & _).
    injection Hwhy as ->.
    rewrite Heq in Htr. rewrite <- !app_assoc in Htr. simpl in Htr.
    rewrite !app_assoc in Htr.
    apply eq_sym, split_at_unique in Htr as [_ ->].
    + repeat split.
    + intros Hin'. apply elem_of_app in Hin' as [Hin'|Hin'].
      * apply elem_of_app in Hin' as [Hin'|Hin']; [now apply Hka in Hin'|].
        now apply (serveLoop_running_parses _ _ _ _ EOF Hrun) in Hin'.
      * unfold armDeadline in Hin'. destruct (0 <? _)%Z.
        -- apply elem_of_cons in Hin' as [Hin'|Hin']; [discriminate|].
           now apply elem_of_nil in Hin'.
        -- now apply elem_of_nil in Hin'.
    + intros Hin'. apply elem_of_cons in Hin' as [Hin'|Hin']; [discriminate|].
      now apply elem_of_nil in Hin'.
Qed.

End SessionFacts.

(** ** The theorems at work on the sample application *)

Lemma serveIter_handler_error_witness :
  exists st',
    serveIter (mkLoop sample session0 (peer [call "half"]) tt) =
    (st',
     [EvParse (inl (call "half")); EvWrite (Failure (ClientError "boom")) None],
     None).
Proof.
  destruct (serveIter_handler_error
              (mkLoop sample session0 (peer [call "half"]) tt)
              (call "half") (Fragments ["half"]) (ClientError "boom"))
    as [st' Hit]; [reflexivity | vm_compute; reflexivity |].
  exists st'. exact Hit.
Defined.

Lemma serveIter_unknown_command_witness :
  (serveIter (mkLoop sample session0 (peer [call "nope"; call "ping"]) tt)).2 = None /\
  isClientError (UnknownCommand "nope") = true.
Proof.
  destruct (serveIter_unknown_command
              (mkLoop sample session0 (peer [call "nope"; call "ping"]) tt)
              (call "nope"))
    as (_ & Hc & Hit & _); [reflexivity | vm_compute; reflexivity |].
  split; [now rewrite Hit | exact Hc].
Defined.

Lemma serveLoop_pipelined_witness :
  written (serveLoop 3 (mkLoop sample session0
                          (peer [call "ping"; call "nope"; call "ping"]) tt)).1.2
  = [Fragments ["PONG"]; Failure (UnknownCommand "nope"); Fragments ["PONG"]].
Proof.
  set (reqs := [call "ping"; call "nope"; call "ping"]).
  set (st := mkLoop sample session0 (peer reqs) tt).
  destruct (serveLoop_pipelined reqs st (serveLoop 3 st).1.1 (serveLoop 3 st).1.2)
    as (_ & Hw & _).
  - intros i req Hi. simpl. now rewrite Hi.
  - vm_compute. reflexivity.
  - rewrite Hw. vm_compute. reflexivity.
Defined.


Lemma serveClient_EOF_silent_witness :
  (serveClient 5 sample session0 (peer [call "ping"]) tt).2 = Exited ExitDecode.
Proof.
  set (x := serveClient 5 sample session0 (peer [call "ping"]) tt).
  destruct (serveClient_EOF_silent 5 sample session0 (peer [call "ping"]) tt
              x.1.1 x.1.2 x.2
              [EvParse (inl (call "ping")); EvWrite (Fragments ["PONG"]) None]
              [EvClose 7 None])
    as (Hs & _); [vm_compute; reflexivity | vm_compute; reflexivity |].
  exact Hs.
Defined.

(** ** More on shutdown, registration and dispatch *)

Section MoreDispatchFacts.

Context {App : Type}.
Context `{Fold : UnicodeFold}.
Implicit Types (srv : Server App) (req : Request) (app : App) (h : Handler App).

(** X2: when no listener fails to close, [Close] returns nil, whatever
    closing the sessions reported: an error of clearing the registry alone
    is never returned. *)
Theorem Close_hides_session_errors srv :
  (forall l, tcp srv = Some l -> lisClose l = None) ->
  (forall l, unix srv = Some l -> lisClose l = None) ->
  (Close srv).2 = None.
Proof.
  intros Ht Hu. rewrite Close_error.
  assert (Hl : closeListener (unix srv) (closeListener (tcp srv) None) = None).
  { unfold closeListener.
    destruct (unix srv) as [lu|]; [rewrite (Hu lu eq_refl)|];
      (destruct (tcp srv) as [lt|]; [now rewrite (Ht lt eq_refl) | reflexivity]). }
  now rewrite Hl.
Qed.

(** X3: [Close] keeps the command table and the statistics: a request
    dispatched after the shutdown gets the reply it would have got
    before. *)
Theorem Close_keeps_dispatch srv req app :
  areply (Apply (Close srv).1 req app) = areply (Apply srv req app) /\
  asession (Apply (Close srv).1 req app) = asession (Apply srv req app) /\
  aapp (Apply (Close srv).1 req app) = aapp (Apply srv req app) /\
  info (asrv (Apply (Close srv).1 req app)) = info (asrv (Apply srv req app)).
Proof.
  assert (Hc : commands (Close srv).1 = commands srv) by reflexivity.
  assert (Hi : info (Close srv).1 = info srv) by reflexivity.
  unfold Apply. rewrite Hc.
  destruct (commands srv !! Name req); simpl; rewrite ?Hi; repeat split.
Qed.

(** X4: a later registration under a name that differs from an earlier
    one only in letter case, the two folding to the same key, replaces
    it: the server is the one the later registration alone gives. *)
Theorem Handle_last_wins srv n1 h1 n2 h2 :
  ToLower n1 = ToLower n2 ->
  Handle (Handle srv n1 h1) n2 h2 = Handle srv n2 h2.
Proof.
  intros Hn. unfold Handle, withCommands. simpl.
  now rewrite Hn, insert_insert_eq.
Qed.

(** X5: registrations under names that differ by more than letter case,
    the two folding to different keys, can be made in either order. *)
Theorem Handle_commute srv n1 h1 n2 h2 :
  ToLower n1 <> ToLower n2 ->
  Handle (Handle srv n1 h1) n2 h2 = Handle (Handle srv n2 h2) n1 h1.
Proof.
  intros Hn. unfold Handle, withCommands. simpl.
  now rewrite insert_insert_ne by congruence.
Qed.

(** X6: registering a handler changes nothing for the requests whose name
    is not the key the registered name folds to: reply, session,
    handlers' state and statistics are what they were without the
    registration. *)
Theorem Handle_other_names srv name h req app :
  Name req <> ToLower name ->
  areply (Apply (Handle srv name h) req app) = areply (Apply srv req app) /\
  asession (Apply (Handle srv name h) req app) = asession (Apply srv req app) /\
  aapp (Apply (Handle srv name h) req app) = aapp (Apply srv req app) /\
  info (asrv (Apply (Handle srv name h) req app)) = info (asrv (Apply srv req app)).
Proof.
  intros Hn. unfold Apply.
  rewrite (Handle_lookup_other srv name h (Name req) Hn).
  destruct (commands srv !! Name req); simpl; repeat split.
Qed.

(** X7: in a new server filled through [Handle] alone, whatever the
    registrations, a request whose name has an upper-case ASCII letter is
    unknown, and nothing is counted for it. *)
Theorem registerAll_mixed_case cfg (regs : list (string * Handler App)) req app :
  hasUpper (Name req) = true ->
  areply (Apply (registerAll (NewServer cfg) regs) req app)
  = Unknown (UnknownCommand (Name req)) /\
  asrv (Apply (registerAll (NewServer cfg) regs) req app)
  = registerAll (NewServer cfg) regs.
Proof.
  intros Hup.
  pose proof (registerAll_folded _ regs (NewServer_folded (App := App) cfg)) as Hf.
  now rewrite (Apply_not_found _ _ _ (Apply_mixed_case_unknown _ _ Hf Hup)).
Qed.

(** X8: [Apply] changes nothing of the server but the counter of commands
    dispatched: configuration, command table, listeners, registry and the
    counter of connections are as they were. *)
Theorem Apply_only_counts srv req app :
  asrv (Apply srv req app) =
  withInfo srv
    {| connections := connections (info srv);
       commandsProcessed := commandsProcessed (info (asrv (Apply srv req app))) |}.
Proof.
  unfold Apply. destruct (commands srv !! Name req); simpl; [reflexivity|].
  destruct srv as [c [n m] cmds t u cl]. reflexivity.
Qed.

End MoreDispatchFacts.

Lemma Close_hides_session_errors_witness :
  (clients_Clear (clients crowded)).2 = Some (OtherError "close conn: broken") /\
  (Close crowded).2 = None.
Proof.
  split; [vm_compute; reflexivity|].
  apply (Close_hides_session_errors crowded); intros l Hl; discriminate Hl.
Defined.

Lemma Handle_last_wins_witness :
  Handle (Handle (NewServer (App := unit) cfg0) "PING" bye) "ping" ping
  = Handle (NewServer cfg0) "ping" ping.
Proof. apply Handle_last_wins. reflexivity. Defined.

Lemma Handle_commute_witness :
  Handle (Handle (NewServer (App := unit) cfg0) "ping" ping) "quit" bye
  = Handle (Handle (NewServer cfg0) "quit" bye) "ping" ping.
Proof. apply Handle_commute. vm_compute. discriminate. Defined.

Lemma Handle_other_names_witness :
  areply (Apply (Handle gentle "quit" bye) (call "ping") tt)
  = areply (Apply gentle (call "ping") tt).
Proof.
  apply (Handle_other_names gentle "quit" bye (call "ping") tt).
  vm_compute. discriminate.
Defined.

Lemma registerAll_mixed_case_witness :
  areply (Apply (registerAll (NewServer (App := unit) cfg0)
                   [("Ping", ping); ("QUIT", bye)]) (call "Ping") tt)
  = Unknown (UnknownCommand "Ping").
Proof.
  apply (registerAll_mixed_case cfg0 [("Ping", ping); ("QUIT", bye)] (call "Ping") tt).
  reflexivity.
Defined.

(** ** More on the socket path *)

Section MoreListenFacts.

Context {App : Type}.
Implicit Types (srv : Server App) (os : OS).

Lemma net_Listen_unix_other os path os' l e q :
  net_Listen_unix os path = (os', l, e) -> q <> path ->
  files os' !! q = files os !! q.
Proof.
  unfold net_Listen_unix. intros Hl Hq.
  destruct (files os !! path); [now injection Hl as <- _ _|].
  destruct (bindErr os path); injection Hl as <- _ _; [reflexivity|].
  simpl. now rewrite lookup_insert_ne by congruence.
Qed.

Lemma net_Listen_unix_result os path os' l e :
  net_Listen_unix os path = (os', l, e) ->
  (is_Some l <-> e = None) /\
  (e = None -> files os' !! path = Some (mkFile SocketFile None None)).
Proof.
  unfold net_Listen_unix. intros Hl.
  destruct (files os !! path).
  { injection Hl as _ <- <-. split; [split|]; intros H;
      [destruct H as [? H]|..]; discriminate. }
  destruct (bindErr os path); injection Hl as <- <- <-.
  - split; [split|]; intros H; [destruct H as [? H]|..]; discriminate.
  - split; [split; eauto|]. intros _. simpl. apply lookup_insert_eq.
Qed.

(** X9: [listenUnix] touches no path but the socket path: whatever it
    returns, every other file is as it was. *)
Theorem listenUnix_other_paths srv os os' l e q :
  listenUnix srv os = Returned (os', l, e) ->
  q <> Socket (config srv) ->
  files os' !! q = files os !! q.
Proof.
  unfold listenUnix, os_Stat, os_RemoveAll. intros Hl Hq.
  destruct (files os !! Socket (config srv)) as [f|] eqn:Hf.
  - destruct (statErr f) as [se|].
    + destruct (negb (os_IsNotExist (Some se))); [discriminate|].
      injection Hl as Hl. now apply (net_Listen_unix_other _ _ _ _ _ _ Hl).
    + simpl in Hl. destruct (negb (bool_decide (kind f = Directory))).
      * destruct (removeErr f) as [re|].
        -- now injection Hl as <- _ _.
        -- injection Hl as Hl.
           rewrite (net_Listen_unix_other _ _ _ _ _ _ Hl Hq). simpl.
           now rewrite lookup_delete_ne by congruence.
      * injection Hl as Hl. now apply (net_Listen_unix_other _ _ _ _ _ _ Hl).
  - simpl in Hl. injection Hl as Hl.
    now apply (net_Listen_unix_other _ _ _ _ _ _ Hl).
Qed.

(** X10: when [os.Stat] on the socket path fails with an error other than
    "does not exist", [listenUnix] panics: [stat.IsDir()] is called on the
    nil description. *)
Theorem listenUnix_stat_failure_panics srv os f e :
  files os !! Socket (config srv) = Some f ->
  statErr f = Some e ->
  e <> ErrNotExist ->
  listenUnix srv os = Panicked.
Proof.
  intros Hf Hs He. unfold listenUnix, os_Stat. rewrite Hf, Hs.
  unfold os_IsNotExist. rewrite bool_decide_eq_false_2 by congruence.
  reflexivity.
Qed.

(** X11: when the file at the socket path cannot be removed, [listenUnix]
    returns the error of the removal and no listener, without binding:
    the file system is as it was. *)
Theorem listenUnix_remove_failure srv os f e :
  files os !! Socket (config srv) = Some f ->
  statErr f = None ->
  kind f <> Directory ->
  removeErr f = Some e ->
  listenUnix srv os = Returned (os, None, Some e).
Proof.
  intros Hf Hs Hk Hr. unfold listenUnix, os_Stat, os_RemoveAll.
  rewrite Hf, Hs. simpl. rewrite bool_decide_eq_false_2 by assumption. simpl.
  now rewrite Hr.
Qed.

(** X12: [listenUnix] returns a listener exactly when it returns no error,
    and then a socket file sits at the socket path. *)
Theorem listenUnix_listener_or_error srv os os' l e :
  listenUnix srv os = Returned (os', l, e) ->
  (is_Some l <-> e = None) /\
  (e = None -> files os' !! Socket (config srv) = Some (mkFile SocketFile None None)).
Proof.
  unfold listenUnix, os_Stat, os_RemoveAll. intros Hl.
  destruct (files os !! Socket (config srv)) as [f|] eqn:Hf.
  - destruct (statErr f) as [se|].
    + destruct (negb (os_IsNotExist (Some se))); [discriminate|].
      injection Hl as Hl. now apply (net_Listen_unix_result _ _ _ _ _ Hl).
    + simpl in Hl. destruct (negb (bool_decide (kind f = Directory))).
      * destruct (removeErr f) as [re|].
        -- injection Hl as _ <- <-.
           split; [split|]; intros H; [destruct H as [? H]|..]; discriminate.
        -- injection Hl as Hl. now apply (net_Listen_unix_result _ _ _ _ _ Hl).
      * injection Hl as Hl. now apply (net_Listen_unix_result _ _ _ _ _ Hl).
  - simpl in Hl. injection Hl as Hl.
    now apply (net_Listen_unix_result _ _ _ _ _ Hl).
Qed.

(** X13: when nothing sits at the socket path, [listenUnix] removes
    nothing and binds at once: it returns the error of the bind and an
    unchanged file system, or a listener with the new socket file. *)
Theorem listenUnix_free_path srv os :
  files os !! Socket (config srv) = None ->
  listenUnix srv os =
  match bindErr os (Socket (config srv)) with
  | Some e => Returned (os, None, Some e)
  | None =>
      Returned ({| files := <[Socket (config srv) := mkFile SocketFile None None]> (files os);
                   bindErr := bindErr os |},
                Some (mkListener None), None)
  end.
Proof.
  intros Hf. unfold listenUnix, os_Stat, net_Listen_unix. rewrite Hf. simpl.
  now destruct (bindErr os (Socket (config srv))).
Qed.

End MoreListenFacts.

Lemma listenUnix_other_paths_witness :
  exists os', listenUnix (NewServer (App := unit) cfg0) (holding (mkFile RegularFile None None))
              = Returned (os', Some (mkListener None), None) /\
              files os' !! "/tmp/other" = Some (mkFile RegularFile None None).
Proof.
  eexists. split; [vm_compute; reflexivity|].
  rewrite (listenUnix_other_paths (NewServer (App := unit) cfg0)
             (holding (mkFile RegularFile None None)) _ _ _ "/tmp/other"
             ltac:(vm_compute; reflexivity) ltac:(vm_compute; discriminate)).
  vm_compute. reflexivity.
Defined.

Lemma listenUnix_stat_failure_panics_witness :
  listenUnix (NewServer (App := unit) cfg0)
    (holding (mkFile SocketFile (Some (OtherError "permission denied")) None))
  = Panicked.
Proof.
  apply (listenUnix_stat_failure_panics (NewServer (App := unit) cfg0) _
           (mkFile SocketFile (Some (OtherError "permission denied")) None)
           (OtherError "permission denied"));
    [vm_compute; reflexivity | reflexivity | discriminate].
Defined.

Lemma listenUnix_remove_failure_witness :
  listenUnix (NewServer (App := unit) cfg0)
    (holding (mkFile SocketFile None (Some (OtherError "read-only file system"))))
  = Returned (holding (mkFile SocketFile None (Some (OtherError "read-only file system"))),
              None, Some (OtherError "read-only file system")).
Proof.
  apply (listenUnix_remove_failure (NewServer (App := unit) cfg0) _
           (mkFile SocketFile None (Some (OtherError "read-only file system"))));
    [vm_compute; reflexivity | reflexivity | discriminate | reflexivity].
Defined.

Lemma listenUnix_listener_or_error_witness :
  exists os', listenUnix (NewServer (App := unit) cfg0) (holding (mkFile RegularFile None None))
              = Returned (os', Some (mkListener None), None) /\
              files os' !! Socket cfg0 = Some (mkFile SocketFile None None).
Proof.
  eexists. split; [vm_compute; reflexivity|].
  apply (listenUnix_listener_or_error (NewServer (App := unit) cfg0)
           (holding (mkFile RegularFile None None)) _ (Some (mkListener None)) None
           ltac:(vm_compute; reflexivity)).
  reflexivity.
Defined.

Lemma listenUnix_free_path_witness :
  exists os', listenUnix (NewServer (App := unit) cfg0) bare
              = Returned (os', Some (mkListener None), None).
Proof.
  rewrite (listenUnix_free_path (NewServer (App := unit) cfg0) bare)
    by (vm_compute; reflexivity).
  eexists. reflexivity.
Defined.

(** ** Start-up *)

Section StartFacts.

Context {App : Type}.
Implicit Types (srv : Server App) (os : OS)
  (tcpListen : string -> option Listener * option error).

(** With neither a listen address nor a socket path configured,
    [ListenAndServe] opens no listener, starts no accept loop and touches
    nothing; it then waits on a channel no accept loop will send to. *)
Theorem ListenAndServe_nothing_configured srv tcpListen os :
  Addr (config srv) = "" ->
  Socket (config srv) = "" ->
  ListenAndServe srv tcpListen os = mkStarted srv os [] Waiting.
Proof.
  intros Ha Hs. unfold ListenAndServe, Server_Addr, Server_Socket.
  rewrite Ha. simpl. now rewrite Hs.
Qed.

(** X15: when listening on the TCP address fails, [ListenAndServe] returns
    that error at once: no accept loop is started, and the socket path is
    not looked at, the file system and the Unix listener of the server
    being as they were. *)
Theorem ListenAndServe_tcp_failure srv tcpListen os l e :
  Addr (config srv) <> "" ->
  tcpListen (Addr (config srv)) = (l, Some e) ->
  ListenAndServe srv tcpListen os = mkStarted (withTcp srv l) os [] (StartFailed e).
Proof.
  intros Ha Ht. unfold ListenAndServe, Server_Addr.
  rewrite bool_decide_eq_true_2 by assumption. now rewrite Ht.
Qed.

(** X16: when the TCP listener was opened and preparing the socket path
    then fails, [ListenAndServe] returns the error of the socket path
    while the TCP listener stays open, kept in the server, its accept
    loop running. *)
Theorem ListenAndServe_unix_failure srv tcpListen os lt os' lu e :
  Addr (config srv) <> "" ->
  tcpListen (Addr (config srv)) = (Some lt, None) ->
  Socket (config srv) <> "" ->
  listenUnix srv os = Returned (os', lu, Some e) ->
  ListenAndServe srv tcpListen os =
  mkStarted (withUnix (withTcp srv (Some lt)) lu) os' [Some lt] (StartFailed e).
Proof.
  intros Ha Ht Hs Hu. unfold ListenAndServe, Server_Addr, Server_Socket.
  rewrite bool_decide_eq_true_2 by assumption. rewrite Ht.
  cbn [config withTcp]. rewrite bool_decide_eq_true_2 by assumption.
  change (listenUnix (withTcp srv (Some lt)) os) with (listenUnix srv os).
  now rewrite Hu.
Qed.

(** X17: [ListenAndServe] starts at most two accept loops, which is the
    capacity of the channel [errs], and each of them on a listener it
    stored in the server. *)
Theorem ListenAndServe_loops srv tcpListen os :
  let r := ListenAndServe srv tcpListen os in
  length (sloops r) <= 2 /\
  forall l, l ∈ sloops r -> l = tcp (ssrv r) \/ l = unix (ssrv r).
Proof.
  assert (Hin : forall (a b l : option Listener) (ls : list (option Listener)),
             l ∈ ls -> (ls = [] \/ ls = [a] \/ ls = [b] \/ ls = [a; b]) ->
             l = a \/ l = b).
  { intros a b l ls Hl [-> | [-> | [-> | ->]]];
      repeat (apply elem_of_cons in Hl as [Hl|Hl]; [subst; auto|]);
      now apply elem_of_nil in Hl. }
  unfold ListenAndServe, Server_Addr, Server_Socket.
  destruct (bool_decide (Addr (config srv) <> "")).
  - destruct (tcpListen (Addr (config srv))) as [lt [e|]]; cbn [config withTcp].
    + simpl. split; [lia|]. intros l Hl. apply (Hin _ _ _ _ Hl). auto.
    + destruct (bool_decide (Socket (config srv) <> "")).
      * destruct (listenUnix _ os) as [[[os' lu] [e|]]|]; simpl;
          (split; [lia|]); intros l Hl; apply (Hin _ _ _ _ Hl); auto.
      * simpl. split; [lia|]. intros l Hl. apply (Hin _ _ _ _ Hl). auto.
  - simpl. destruct (bool_decide (Socket (config srv) <> "")).
    + destruct (listenUnix srv os) as [[[os' lu] [e|]]|]; simpl;
        (split; [lia|]); intros l Hl; apply (Hin _ _ _ _ Hl); auto.
    + simpl. split; [lia|]. intros l Hl. apply (Hin _ _ _ _ Hl). auto.
Qed.

End StartFacts.

Lemma ListenAndServe_nothing_configured_witness :
  ListenAndServe (NewServer (App := unit) cfgNone) tcpBusy bare
  = mkStarted (NewServer cfgNone) bare [] Waiting.
Proof. apply ListenAndServe_nothing_configured; reflexivity. Defined.

Lemma ListenAndServe_tcp_failure_witness :
  ListenAndServe (NewServer (App := unit) cfgBoth) tcpBusy (occupied SocketFile)
  = mkStarted (NewServer cfgBoth) (occupied SocketFile) [] (StartFailed ErrAddrInUse).
Proof.
  apply (ListenAndServe_tcp_failure (NewServer (App := unit) cfgBoth) tcpBusy
           (occupied SocketFile) None ErrAddrInUse);
    [discriminate | reflexivity].
Defined.

Lemma ListenAndServe_unix_failure_witness :
  sout (ListenAndServe (NewServer (App := unit) cfgBoth) tcpFree (occupied Directory))
  = StartFailed ErrAddrInUse /\
  tcp (ssrv (ListenAndServe (NewServer (App := unit) cfgBoth) tcpFree (occupied Directory)))
  = Some (mkListener None).
Proof.
  rewrite (ListenAndServe_unix_failure (NewServer (App := unit) cfgBoth) tcpFree
             (occupied Directory) (mkListener None) (occupied Directory) None ErrAddrInUse);
    [split; reflexivity | discriminate | reflexivity | discriminate
     | vm_compute; reflexivity].
Defined.

(** ** The accept loop *)

(** X18: when the connections [conns] are accepted and the next [Accept]
    fails, [serve] starts one session per connection, in the order of
    arrival, sends that error on [errs], closes its listener and
    returns. *)
Theorem serve_until_failure (conns : list Conn) lis accepts pos e fuel :
  (forall i c, conns !! i = Some c -> accepts (pos + i) = inl c) ->
  accepts (pos + length conns) = inr e ->
  length conns < fuel ->
  serve fuel lis accepts pos =
  (map AcSpawn conns ++ [AcSend e; AcClose (lisClose lis)], true).
Proof.
  revert pos fuel. induction conns as [|c conns IH]; intros pos fuel Hc He Hf.
  - destruct fuel as [|fuel]; [simpl in Hf; lia|].
    simpl in *. rewrite Nat.add_0_r in He. now rewrite He.
  - destruct fuel as [|fuel]; [simpl in Hf; lia|].
    cbn [serve]. pose proof (Hc 0 c eq_refl) as H0.
    rewrite Nat.add_0_r in H0. rewrite H0.
    rewrite (IH (S pos) fuel).
    + reflexivity.
    + intros i c' Hi. specialize (Hc (S i) c' Hi).
      now rewrite Nat.add_succ_r in Hc.
    + simpl in He. now rewrite Nat.add_succ_r in He.
    + simpl in Hf. lia.
Qed.

(** X19: whatever arrives, an accept loop that has not returned has only
    started sessions, and one that returned did so at the first failed
    [Accept]: it sent one error, the last thing before closing its
    listener. *)
Theorem serve_shape fuel lis accepts pos evs done :
  serve fuel lis accepts pos = (evs, done) ->
  exists conns : list Conn,
    (forall i c, conns !! i = Some c -> accepts (pos + i) = inl c) /\
    if done
    then exists e, accepts (pos + length conns) = inr e /\
                   evs = map AcSpawn conns ++ [AcSend e; AcClose (lisClose lis)]
    else evs = map AcSpawn conns /\ length conns = fuel.
Proof.
  revert pos evs done. induction fuel as [|fuel IH]; intros pos evs done Hs.
  - injection Hs as <- <-. exists []. split; [intros i c Hi; discriminate|].
    split; reflexivity.
  - cbn [serve] in Hs. destruct (accepts pos) as [c|e] eqn:Ha.
    + destruct (serve fuel lis accepts (S pos)) as [evs' done'] eqn:Hs'.
      injection Hs as <- <-.
      destruct (IH _ _ _ Hs') as (conns & Hc & Hrest).
      exists (c :: conns). split.
      * intros [|i] c' Hi; simpl in Hi.
        -- injection Hi as <-. now rewrite Nat.add_0_r.
        -- rewrite Nat.add_succ_r. now apply Hc.
      * destruct done'.
        -- destruct Hrest as (e & He & ->). exists e. split; [|reflexivity].
           simpl. now rewrite Nat.add_succ_r.
        -- destruct Hrest as [-> <-]. split; reflexivity.
    + injection Hs as <- <-. exists []. split; [intros i c Hi; discriminate|].
      exists e. split; [|reflexivity]. simpl. now rewrite Nat.add_0_r.
Qed.

Lemma serve_until_failure_witness :
  serve 5 (mkListener None) (arrivals [peer []; peer [call "ping"]] EOF) 0
  = ([AcSpawn (peer []); AcSpawn (peer [call "ping"]); AcSend EOF; AcClose None], true).
Proof.
  apply (serve_until_failure [peer []; peer [call "ping"]] (mkListener None)
           (arrivals [peer []; peer [call "ping"]] EOF) 0 EOF 5).
  - intros i c Hi. unfold arrivals. simpl. now rewrite Hi.
  - reflexivity.
  - simpl. lia.
Defined.

Lemma serve_shape_witness :
  exists conns : list Conn,
    (serve 1 (mkListener None) (arrivals [peer []; peer [call "ping"]] EOF) 0).1
    = map AcSpawn conns /\ length conns = 1.
Proof.
  destruct (serve_shape 1 (mkListener None)
              (arrivals [peer []; peer [call "ping"]] EOF) 0
              [AcSpawn (peer [])] false eq_refl) as (conns & _ & Hev & Hlen).
  exists conns. split; [exact Hev | exact Hlen].
Defined.

(** ** Accounting over a session *)

Section AccountFacts.

Context {App : Type}.
Implicit Types (srv : Server App) (st : Loop App) (req : Request) (app : App).

(** The calls of a turn: the deadline, one decode, at most one write. *)
Lemma serveIter_shape st :
  exists ws,
    (serveIter st).1.2 =
    armDeadline (config (lsrv st)) ++
      EvParse (reads (lconn st) (rpos (lconn st))) :: ws /\
    (ws = [] \/ exists res out, ws = [EvWrite res out]).
Proof.
  unfold serveIter, ParseRequest.
  destruct (reads (lconn st) (rpos (lconn st))) as [req|e].
  - destruct (areply _) as [e|res [e|]].
    + unfold writeError. destruct (decide (e = EOF)); eexists; (split; [reflexivity|]);
        [now left | right; eauto].
    + unfold writeError. destruct (decide (e = EOF)); eexists; (split; [reflexivity|]);
        [now left | right; eauto].
    + eexists. split; [reflexivity|]. right; eauto.
  - unfold writeError. destruct (decide (e = EOF)); eexists; (split; [reflexivity|]);
      [now left | right; eauto].
Qed.

Lemma parses_app (tr1 tr2 : list Event) :
  parses (tr1 ++ tr2) = parses tr1 ++ parses tr2.
Proof.
  induction tr1 as [|e tr1 IH]; [reflexivity|].
  destruct e; simpl; now rewrite IH.
Qed.

Lemma parses_armDeadline cfg : parses (armDeadline cfg) = [].
Proof. unfold armDeadline. now destruct (0 <? _)%Z. Qed.

Lemma serveIter_parses st :
  parses (serveIter st).1.2 = [reads (lconn st) (rpos (lconn st))].
Proof.
  destruct (serveIter_shape st) as (ws & -> & [->|(res & out & ->)]);
    now rewrite parses_app, parses_armDeadline.
Qed.

Lemma dispatched_app srv (rs1 rs2 : list (Request + error)) :
  dispatched srv (rs1 ++ rs2) = (dispatched srv rs1 + dispatched srv rs2)%N.
Proof.
  induction rs1 as [|[req|e] rs1 IH]; simpl; [reflexivity | | exact IH].
  rewrite IH. lia.
Qed.

Lemma dispatched_ext srv srv' (rs : list (Request + error)) :
  commands srv' = commands srv -> dispatched srv' rs = dispatched srv rs.
Proof.
  intros Hc. induction rs as [|[req|e] rs IH]; simpl; [reflexivity | | exact IH].
  now rewrite Hc, IH.
Qed.

(** The statistics over one turn. *)
Lemma serveIter_info st :
  connections (info (lsrv (serveIter st).1.1)) = connections (info (lsrv st)) /\
  commandsProcessed (info (lsrv (serveIter st).1.1)) =
  (commandsProcessed (info (lsrv st)) +
   dispatched (lsrv st) [reads (lconn st) (rpos (lconn st))])%N.
Proof.
  unfold serveIter, ParseRequest.
  destruct (reads (lconn st) (rpos (lconn st))) as [req|e].
  - unfold Apply. cbn [Name withClient dispatched].
    destruct (commands (lsrv st) !! Name req) as [h|]; cbn [areply asrv].
    + destruct (herr _) as [e|].
      * destruct (writeError _ e). simpl. split; [reflexivity | lia].
      * simpl. split; [reflexivity | lia].
    + destruct (writeError _ _). simpl. split; [reflexivity | lia].
  - destruct (writeError _ e). simpl. split; [reflexivity | lia].
Qed.

(** The statistics over a run of the loop. *)
Lemma serveLoop_info fuel st :
  connections (info (lsrv (serveLoop fuel st).1.1)) = connections (info (lsrv st)) /\
  commandsProcessed (info (lsrv (serveLoop fuel st).1.1)) =
  (commandsProcessed (info (lsrv st)) +
   dispatched (lsrv st) (parses (serveLoop fuel st).1.2))%N.
Proof.
  revert st. induction fuel as [|fuel IH]; intros st.
  - simpl. split; [reflexivity | lia].
  - cbn [serveLoop].
    pose proof (serveIter_info st) as [Hc Hp].
    pose proof (serveIter_parses st) as Hps.
    pose proof (serveIter_frame st) as (_ & _ & Hcmd & _).
    destruct (serveIter st) as [[st1 t1] [w|]]; cbn [fst snd] in *.
    + rewrite Hps. split; assumption.
    + specialize (IH st1). destruct (serveLoop fuel st1) as [[st2 tr2] s].
      cbn [fst snd] in *. destruct IH as [Hc' Hp'].
      split; [congruence|].
      rewrite Hp', Hp, parses_app, Hps, dispatched_app.
      rewrite (dispatched_ext (lsrv st) (lsrv st1) _ Hcmd). lia.
Qed.

Lemma parses_keepAlive cfg t : parses (keepAlive cfg t) = [].
Proof. unfold keepAlive. destruct (0 <? _)%Z; [destruct (isTCP t)|]; reflexivity. Qed.

(** X20: a session counts as one connection accepted, whatever happens in
    it and however it ends: the handlers and the loop leave that counter
    alone. *)
Theorem serveClient_counts_one_connection fuel srv cl conn app :
  connections (info (lsrv (serveClient fuel srv cl conn app).1.1))
  = (connections (info srv) + 1)%N.
Proof.
  unfold serveClient.
  set (st0 := mkLoop _ cl conn app).
  pose proof (serveLoop_info fuel st0) as [Hc _].
  destruct (serveLoop fuel st0) as [[st' trl] [|w]]; simpl in *.
  - exact Hc.
  - unfold deregister, clients_Close.
    destruct (clients (lsrv st') !! id cl); simpl; exact Hc.
Qed.

(** X21: over a session, the counter of commands dispatched grows by the
    number of decoded requests whose name is in the command table,
    neither more nor less: unknown commands and failed decodes count for
    nothing, and a command counts even when its handler fails or its
    reply cannot be written. *)
Theorem serveClient_counts_commands fuel srv cl conn app :
  commandsProcessed (info (lsrv (serveClient fuel srv cl conn app).1.1))
  = (commandsProcessed (info srv) +
     dispatched srv (parses (serveClient fuel srv cl conn app).1.2))%N.
Proof.
  unfold serveClient.
  set (st0 := mkLoop _ cl conn app).
  pose proof (serveLoop_info fuel st0) as [_ Hp].
  assert (Hd : forall rs, dispatched (lsrv st0) rs = dispatched srv rs)
    by (intros rs; now apply dispatched_ext).
  rewrite Hd in Hp.
  destruct (serveLoop fuel st0) as [[st' trl] [|w]]; simpl in *.
  - now rewrite parses_app, parses_keepAlive.
  - unfold deregister, clients_Close.
    destruct (clients (lsrv st') !! id cl); simpl;
      rewrite !parses_app, parses_keepAlive; simpl; rewrite ?app_nil_r; exact Hp.
Qed.

(** X22: while a session runs it is in the registry under its identity;
    once [serveClient] has returned, the registry is the one it found,
    without any entry under that identity. *)
Theorem serveClient_registry fuel srv cl conn app :
  clients (lsrv (serveClient fuel srv cl conn app).1.1) =
  match (serveClient fuel srv cl conn app).2 with
  | Running => <[id cl := transport conn]> (clients srv)
  | Exited _ => delete (id cl) (clients srv)
  end.
Proof.
  unfold serveClient.
  set (st0 := mkLoop _ cl conn app).
  pose proof (serveLoop_frame fuel st0) as (_ & Hm & _).
  destruct (serveLoop fuel st0) as [[st' trl] [|w]]; simpl in *.
  - exact Hm.
  - unfold deregister, clients_Close. rewrite Hm.
    unfold clients_Put. rewrite lookup_insert_eq. simpl.
    apply delete_insert_eq.
Qed.

End AccountFacts.

(** ** The shape of a session's trace *)

Section TraceFacts.

Context {App : Type}.
Implicit Types (srv : Server App) (st : Loop App) (req : Request) (app : App).

(** The calls a run of the loop makes: deadlines of the configured
    timeout, decodes and writes. *)
Lemma serveLoop_events fuel st ev :
  ev ∈ (serveLoop fuel st).1.2 ->
  (ev = EvDeadline (Timeout (config (lsrv st))) /\ (0 < Timeout (config (lsrv st)))%Z) \/
  (exists r, ev = EvParse r) \/
  (exists res out, ev = EvWrite res out).
Proof.
  revert st. induction fuel as [|fuel IH]; intros st Hin.
  - now apply elem_of_nil in Hin.
  - cbn [serveLoop] in Hin.
    destruct (serveIter_shape st) as (ws & Ht & Hws).
    pose proof (serveIter_frame st) as (Hcfg & _).
    assert (Hturn : forall ev', ev' ∈ (serveIter st).1.2 ->
              (ev' = EvDeadline (Timeout (config (lsrv st))) /\
               (0 < Timeout (config (lsrv st)))%Z) \/
              (exists r, ev' = EvParse r) \/
              (exists res out, ev' = EvWrite res out)).
    { intros ev' Hev. rewrite Ht in Hev.
      apply elem_of_app in Hev as [Hev|Hev].
      - unfold armDeadline in Hev.
        destruct (0 <? Timeout (config (lsrv st)))%Z eqn:Hz.
        + apply elem_of_cons in Hev as [->|Hev]; [|now apply elem_of_nil in Hev].
          left. split; [reflexivity | now apply Z.ltb_lt].
        + now apply elem_of_nil in Hev.
      - apply elem_of_cons in Hev as [->|Hev]; [right; left; eauto|].
        destruct Hws as [->|(res & out & ->)]; [now apply elem_of_nil in Hev|].
        apply elem_of_cons in Hev as [->|Hev]; [right; right; eauto|].
        now apply elem_of_nil in Hev. }
    destruct (serveIter st) as [[st1 t1] [w|]]; cbn [fst snd] in *.
    + now apply Hturn.
    + specialize (IH st1). destruct (serveLoop fuel st1) as [[st2 tr2] s].
      cbn [fst snd] in *. apply elem_of_app in Hin as [Hin|Hin].
      * now apply Hturn.
      * rewrite Hcfg in IH. now apply IH.
Qed.

(** A session's trace: the keep-alive, the run of the loop, the close. *)
Lemma serveClient_trace fuel srv cl conn app :
  exists trl,
    (forall ev, ev ∈ trl ->
       (ev = EvDeadline (Timeout (config srv)) /\ (0 < Timeout (config srv))%Z) \/
       (exists r, ev = EvParse r) \/
       (exists res out, ev = EvWrite res out)) /\
    (serveClient fuel srv cl conn app).1.2 =
    keepAlive (config srv) (transport conn) ++ trl ++
    match (serveClient fuel srv cl conn app).2 with
    | Running => []
    | Exited _ => [EvClose (id cl) (connClose (transport conn))]
    end.
Proof.
  unfold serveClient.
  set (st0 := mkLoop _ cl conn app).
  pose proof (serveLoop_events fuel st0) as Hev.
  pose proof (serveLoop_frame fuel st0) as (_ & Hm & _).
  destruct (serveLoop fuel st0) as [[st' trl] [|w]]; cbn [fst snd] in *.
  - exists trl. split; [intros ev; apply Hev|]. now rewrite app_nil_r.
  - exists trl. split; [intros ev; apply Hev|].
    unfold deregister, clients_Close. rewrite Hm. unfold st0, clients_Put.
    simpl. now rewrite lookup_insert_eq.
Qed.

(** X23: the transport of a session is closed once, and it is the last
    thing [serveClient] does: a session that is still running has not
    closed it, and one that returned closed it at the very end. *)
Theorem serveClient_closes_once fuel srv cl conn app :
  match (serveClient fuel srv cl conn app).2 with
  | Running => forall i out, EvClose i out ∉ (serveClient fuel srv cl conn app).1.2
  | Exited _ =>
      exists tr',
        (serveClient fuel srv cl conn app).1.2 =
        tr' ++ [EvClose (id cl) (connClose (transport conn))] /\
        forall i out, EvClose i out ∉ tr'
  end.
Proof.
  destruct (serveClient_trace fuel srv cl conn app) as (trl & Hev & Htr).
  assert (Hno : forall i out,
             EvClose i out ∉ keepAlive (config srv) (transport conn) ++ trl).
  { intros i out Hin. apply elem_of_app in Hin as [Hin|Hin].
    - unfold keepAlive in Hin.
      destruct (0 <? _)%Z; [destruct (isTCP _)|]; elem_cases Hin.
    - destruct (Hev _ Hin) as [[H _]|[[r H]|(res & o & H)]]; discriminate H. }
  destruct ((serveClient fuel srv cl conn app).2).
  - intros i out. rewrite Htr, app_nil_r. apply Hno.
  - exists (keepAlive (config srv) (transport conn) ++ trl).
    split; [now rewrite Htr, app_assoc | exact Hno].
Qed.


End TraceFacts.


(** ** Deadlines, failures and the end of a run *)

Section EndFacts.

Context {App : Type}.
Implicit Types (srv : Server App) (st : Loop App) (req : Request) (app : App).

(** Splitting a list after a prefix, and before a suffix, that does not
    hold the element. *)
Lemma split_after_prefix {A : Type} (x : A) (k l l1 l2 : list A) :
  x ∉ k -> k ++ l = l1 ++ x :: l2 ->
  exists l1', l1 = k ++ l1' /\ l = l1' ++ x :: l2.
Proof.
  revert l1. induction k as [|y k IH]; intros l1 Hk Heq.
  - exists l1. split; [reflexivity | exact Heq].
  - destruct l1 as [|z l1]; simpl in Heq.
    + injection Heq as -> _. exfalso. apply Hk. apply elem_of_cons. now left.
    + injection Heq as -> Heq. destruct (IH l1) as (l1' & -> & ->).
      * intros Hin. apply Hk. apply elem_of_cons. now right.
      * exact Heq.
      * exists l1'. split; reflexivity.
Qed.

Lemma split_before_suffix {A : Type} (x : A) (l c l1 l2 : list A) :
  x ∉ c -> l ++ c = l1 ++ x :: l2 ->
  exists l2', l = l1 ++ x :: l2' /\ l2 = l2' ++ c.
Proof.
  revert l. induction l1 as [|z l1 IH]; intros l Hc Heq.
  - destruct l as [|y l]; simpl in Heq.
    + exfalso. apply Hc. rewrite Heq. apply elem_of_cons. now left.
    + injection Heq as -> <-. exists l. split; reflexivity.
  - destruct l as [|y l]; simpl in Heq.
    + exfalso. apply Hc. rewrite Heq. apply elem_of_cons. right.
      apply elem_of_app. right. apply elem_of_cons. now left.
    + injection Heq as -> Heq. destruct (IH l Hc Heq) as (l2' & -> & ->).
      exists l2'. split; reflexivity.
Qed.

(** Where a decode can sit in the calls of a turn followed by more. *)
Lemma turn_split (d : Event) r0 (ws rest tr0 tr1 : list Event) r :
  (forall r', d <> EvParse r') ->
  (ws = [] \/ exists res out, ws = [EvWrite res out]) ->
  ([d] ++ EvParse r0 :: ws) ++ rest = tr0 ++ EvParse r :: tr1 ->
  tr0 = [d] \/ exists l, rest = l ++ EvParse r :: tr1.
Proof.
  intros Hd Hws Heq. destruct tr0 as [|x tr0]; simpl in Heq.
  - injection Heq as Heq _. now apply Hd in Heq.
  - injection Heq as <- Heq. destruct tr0 as [|y tr0]; simpl in Heq.
    + now left.
    + right. injection Heq as <- Heq.
      destruct Hws as [->|(res & out & ->)]; simpl in Heq.
      * now exists tr0.
      * destruct tr0 as [|z tr0]; simpl in Heq; [discriminate|].
        injection Heq as <- Heq. now exists tr0.
Qed.

Lemma serveLoop_deadline fuel st tr0 r tr1 :
  (0 < Timeout (config (lsrv st)))%Z ->
  (serveLoop fuel st).1.2 = tr0 ++ EvParse r :: tr1 ->
  exists tr0', tr0 = tr0' ++ [EvDeadline (Timeout (config (lsrv st)))].
Proof.
  revert st tr0. induction fuel as [|fuel IH]; intros st tr0 Hz Heq.
  - simpl in Heq. now destruct tr0.
  - cbn [serveLoop] in Heq.
    destruct (serveIter_shape st) as (ws & Ht & Hws).
    pose proof (serveIter_frame st) as (Hcfg & _).
    assert (Harm : armDeadline (config (lsrv st))
                   = [EvDeadline (Timeout (config (lsrv st)))]).
    { unfold armDeadline. now rewrite (proj2 (Z.ltb_lt _ _) Hz). }
    rewrite Harm in Ht.
    assert (Hd : forall r', EvDeadline (Timeout (config (lsrv st))) <> EvParse r')
      by discriminate.
    destruct (serveIter st) as [[st1 t1] [w|]]; cbn [fst snd] in *.
    + rewrite Ht in Heq. rewrite <- (app_nil_r (_ ++ _ :: ws)) in Heq.
      destruct (turn_split _ _ _ _ _ _ _ Hd Hws Heq) as [->|[l Hl]];
        [now exists [] | now destruct l].
    + specialize (IH st1). destruct (serveLoop fuel st1) as [[st2 tr2] s].
      cbn [fst snd] in *. rewrite Ht in Heq.
      destruct (turn_split _ _ _ _ _ _ _ Hd Hws Heq) as [->|[l Hl]];
        [now exists []|].
      rewrite Hl in Heq.
      assert (Hpre : tr0 = ([EvDeadline (Timeout (config (lsrv st)))] ++
                            EvParse (reads (lconn st) (rpos (lconn st))) :: ws) ++ l).
      { rewrite app_assoc in Heq. now apply app_inv_tail in Heq. }
      rewrite Hcfg in IH. destruct (IH l Hz Hl) as [l' ->].
      exists (([EvDeadline (Timeout (config (lsrv st)))] ++
               EvParse (reads (lconn st) (rpos (lconn st))) :: ws) ++ l').
      now rewrite Hpre, app_assoc.
Qed.

(** X25: when an idle timeout is configured, every decode comes right
    after the deadline was set to that timeout; when none is configured,
    no deadline is ever set. *)
Theorem serveClient_deadlines fuel srv cl conn app :
  ((0 < Timeout (config srv))%Z ->
   forall tr0 r tr1,
     (serveClient fuel srv cl conn app).1.2 = tr0 ++ EvParse r :: tr1 ->
     exists tr0', tr0 = tr0' ++ [EvDeadline (Timeout (config srv))]) /\
  ((Timeout (config srv) <= 0)%Z ->
   forall t, EvDeadline t ∉ (serveClient fuel srv cl conn app).1.2).
Proof.
  split.
  - intros Hz tr0 r tr1 Heq. unfold serveClient in Heq.
    set (st0 := mkLoop _ cl conn app) in Heq.
    pose proof (serveLoop_deadline fuel st0) as Hd.
    assert (Hka : EvParse r ∉ keepAlive (config srv) (transport conn)).
    { unfold keepAlive. intros Hin.
      destruct (0 <? _)%Z; [destruct (isTCP _)|]; elem_cases Hin. }
    destruct (serveLoop fuel st0) as [[st' trl] [|w]]; cbn [fst snd] in *.
    + apply split_after_prefix in Heq as (l1' & -> & Hl); [|exact Hka].
      destruct (Hd _ _ _ Hz Hl) as [tr0' ->].
      exists (keepAlive (config srv) (transport conn) ++ tr0').
      now rewrite app_assoc.
    + destruct (deregister (id cl) (lsrv st')) as [srv' trc] eqn:Hdr.
      cbn [fst snd] in Heq.
      assert (Hc : EvParse r ∉ trc).
      { unfold deregister in Hdr. destruct (clients_Close _ _) as [m o].
        injection Hdr as _ <-. intros Hin.
        destruct (clients (lsrv st') !! id cl); elem_cases Hin. }
      apply split_after_prefix in Heq as (l1' & -> & Hl); [|exact Hka].
      apply split_before_suffix in Hl as (l2' & Hl & _); [|exact Hc].
      destruct (Hd _ _ _ Hz Hl) as [tr0' ->].
      exists (keepAlive (config srv) (transport conn) ++ tr0').
      now rewrite app_assoc.
  - intros Hz t Hin.
    destruct (serveClient_trace fuel srv cl conn app) as (trl & Hev & Htr).
    rewrite Htr in Hin. apply elem_of_app in Hin as [Hin|Hin].
    + unfold keepAlive in Hin.
      destruct (0 <? _)%Z; [destruct (isTCP _)|]; elem_cases Hin.
    + apply elem_of_app in Hin as [Hin|Hin].
      * destruct (Hev _ Hin) as [[_ H]|[[r H]|(res & o & H)]];
          [lia | discriminate H | discriminate H].
      * destruct ((serveClient fuel srv cl conn app).2); elem_cases Hin.
Qed.

End EndFacts.

Lemma serveClient_deadlines_witness :
  exists tr0',
    [EvKeepAlive 30; EvDeadline 5] = tr0' ++ [EvDeadline (Timeout (config tuned))].
Proof.
  destruct (serveClient_deadlines 5 tuned session0 (peer [call "ping"]) tt)
    as [Harmed _].
  apply (Harmed ltac:(reflexivity) [EvKeepAlive 30; EvDeadline 5]
           (inl (call "ping"))
           [EvWrite (Fragments ["PONG"]) None; EvDeadline 5; EvParse (inr EOF);
            EvClose 7 None]).
  vm_compute. reflexivity.
Defined.

(** ** How a session ends *)

Section ExitFacts.

Context {App : Type}.
Implicit Types (srv : Server App) (st : Loop App) (req : Request) (app : App).

(** A turn whose decode failed: the error reply, if any, and the end of
    the loop. *)
Lemma serveIter_failed_decode st st1 t1 ex e :
  serveIter st = (st1, t1, ex) ->
  EvParse (inr e) ∈ t1 ->
  t1 = armDeadline (config (lsrv st)) ++
       EvParse (inr e) :: (writeError (ParseRequest (lconn st)).2 e).2 /\
  ex = Some ExitDecode.
Proof.
  intros Hit Hin.
  destruct (serveIter_shape st) as (ws & Ht & Hws). rewrite Hit in Ht.
  cbn [fst snd] in Ht.
  assert (Hr : (ParseRequest (lconn st)).1 = inr e).
  { rewrite Ht in Hin. apply elem_of_app in Hin as [Hin|Hin].
    - unfold armDeadline in Hin. destruct (0 <? _)%Z; elem_cases Hin.
    - apply elem_of_cons in Hin as [Hin|Hin];
        [injection Hin as Hin; now rewrite Hin|].
      destruct Hws as [->|(res & out & ->)]; elem_cases Hin. }
  rewrite (serveIter_decode_failed st e Hr) in Hit.
  injection Hit as _ <- <-. split; reflexivity.
Qed.

(** X26: when a decode fails with anything but the end of the stream, one
    error reply holding that error is written, and the session ends: the
    only call still made on the connection is the close. *)
Theorem serveClient_decode_failure fuel srv cl conn app st tr s tr0 tr1 e :
  serveClient fuel srv cl conn app = (st, tr, s) ->
  tr = tr0 ++ EvParse (inr e) :: tr1 ->
  e <> EOF ->
  s = Exited ExitDecode /\
  exists out,
    tr1 = [EvWrite (Failure e) out; EvClose (id cl) (connClose (transport conn))].
Proof.
  intros Hs Htr He.
  assert (Hka : EvParse (inr e) ∉ keepAlive (config srv) (transport conn)).
  { unfold keepAlive. intros Hin.
    destruct (0 <? _)%Z; [destruct (isTCP _)|]; elem_cases Hin. }
  assert (Hin : EvParse (inr e) ∈ tr).
  { rewrite Htr. apply elem_of_app. right. apply elem_of_cons. now left. }
  destruct s as [|why].
  - exfalso. unfold serveClient in Hs.
    destruct (serveLoop fuel _) as [[st' trl] [|w]] eqn:Hl.
    + injection Hs as _ <-.
      apply elem_of_app in Hin as [Hin|Hin]; [now apply Hka|].
      now apply (serveLoop_running_parses _ _ _ _ e Hl).
    + destruct (deregister _ _). discriminate.
  - destruct (serveClient_exited _ _ _ _ _ _ _ _ Hs) as (st' & trl & Hl & Heq & _).
    destruct (serveLoop_exited _ _ _ _ _ Hl) as (n & st0 & trA & t1 & Hrun & Hit & ->).
    pose proof (serveLoop_running_parses _ _ _ _ e Hrun) as HA.
    assert (Hin1 : EvParse (inr e) ∈ t1).
    { rewrite Heq in Hin.
      apply elem_of_app in Hin as [Hin|Hin]; [now apply Hka in Hin|].
      apply elem_of_app in Hin as [Hin|Hin].
      - apply elem_of_app in Hin as [Hin|Hin]; [now apply HA in Hin | exact Hin].
      - elem_cases Hin. }
    destruct (serveIter_failed_decode _ _ _ _ _ Hit Hin1) as (-> & Hwhy).
    injection Hwhy as ->.
    rewrite writeError_other in Heq by exact He. cbn [snd] in Heq.
    rewrite Heq in Htr. rewrite <- !app_assoc in Htr. simpl in Htr.
    rewrite !app_assoc in Htr.
    apply eq_sym, split_at_unique in Htr as [_ ->].
    + split; [reflexivity|]. eexists. reflexivity.
    + intros Hin'. apply elem_of_app in Hin' as [Hin'|Hin'].
      * apply elem_of_app in Hin' as [Hin'|Hin']; [now apply Hka in Hin'|].
        now apply HA in Hin'.
      * unfold armDeadline in Hin'. destruct (0 <? _)%Z; elem_cases Hin'.
    + intros Hin'. elem_cases Hin'.
Qed.

(** A turn that ends the loop on a failed write. *)
Lemma serveIter_exit_write st st1 t1 :
  serveIter st = (st1, t1, Some ExitWrite) ->
  exists req res e,
    (ParseRequest (lconn st)).1 = inl req /\
    areply (Apply (lsrv st) (withClient req (Some (lclient st))) (lapp st))
    = Handled res None /\
    writes (lconn st) (wpos (lconn st)) = Some e /\
    t1 = armDeadline (config (lsrv st)) ++ [EvParse (inl req); EvWrite res (Some e)].
Proof.
  intros Hit. destruct ((ParseRequest (lconn st)).1) as [req|e] eqn:Hr.
  - set (a := Apply (lsrv st) (withClient req (Some (lclient st))) (lapp st)).
    destruct (areply a) as [e|res [e|]] eqn:Ha.
    + rewrite (serveIter_failed st req e Hr) in Hit by (fold a; now rewrite Ha).
      destruct (isClientError e); discriminate.
    + rewrite (serveIter_failed st req e Hr) in Hit by (fold a; now rewrite Ha).
      destruct (isClientError e); discriminate.
    + rewrite (serveIter_replied st req res Hr Ha) in Hit.
      destruct (writes (lconn st) (wpos (lconn st))) as [e|] eqn:Hw.
      * injection Hit as _ <-. exists req, res, e.
        repeat split; first [exact Ha | reflexivity].
      * destruct (quit _); discriminate.
  - rewrite (serveIter_decode_failed st e Hr) in Hit. discriminate.
Qed.

(** A turn that ends the loop on an error of [Apply]. *)
Lemma serveIter_exit_fatal st st1 t1 :
  serveIter st = (st1, t1, Some ExitFatal) ->
  exists req err,
    (ParseRequest (lconn st)).1 = inl req /\
    replyErr (areply (Apply (lsrv st) (withClient req (Some (lclient st))) (lapp st)))
    = Some err /\
    isClientError err = false /\
    t1 = armDeadline (config (lsrv st)) ++
         EvParse (inl req) :: (writeError (ParseRequest (lconn st)).2 err).2.
Proof.
  intros Hit. destruct ((ParseRequest (lconn st)).1) as [req|e] eqn:Hr.
  - set (a := Apply (lsrv st) (withClient req (Some (lclient st))) (lapp st)).
    destruct (replyErr (areply a)) as [err|] eqn:He.
    + rewrite (serveIter_failed st req err Hr He) in Hit.
      destruct (isClientError err) eqn:Hce; [discriminate|].
      injection Hit as _ <-. exists req, err. repeat split; assumption.
    + destruct (areply a) as [e|res [e|]] eqn:Ha; try discriminate He.
      rewrite (serveIter_replied st req res Hr Ha) in Hit.
      destruct (writes (lconn st) (wpos (lconn st))); [discriminate|].
      destruct (quit _); discriminate.
  - rewrite (serveIter_decode_failed st e Hr) in Hit. discriminate.
Qed.

(** X27: take the request decoded after some turns of a session, whose
    handler returns no error.  When the write of its reply fails, the
    session ends there: after the decode of that request and the failed
    write of that reply comes the close, and nothing else.  And a session
    ends on a failed write in this way only: the failed write of an error
    reply never ends a session by itself. *)
Theorem serveClient_write_failure fuel srv cl conn app :
  (forall n st0 tr0 req res e,
     serveLoop n (startLoop srv cl conn app) = (st0, tr0, Running) ->
     n < fuel ->
     (ParseRequest (lconn st0)).1 = inl req ->
     areply (Apply (lsrv st0) (withClient req (Some (lclient st0))) (lapp st0))
     = Handled res None ->
     writes (lconn st0) (wpos (lconn st0)) = Some e ->
     (serveClient fuel srv cl conn app).1.2 =
       keepAlive (config srv) (transport conn) ++ tr0 ++
       armDeadline (config srv) ++
       [EvParse (inl req); EvWrite res (Some e);
        EvClose (id cl) (connClose (transport conn))] /\
     (serveClient fuel srv cl conn app).2 = Exited ExitWrite) /\
  (forall st tr,
     serveClient fuel srv cl conn app = (st, tr, Exited ExitWrite) ->
     exists n st0 tr0 req res e,
       serveLoop n (startLoop srv cl conn app) = (st0, tr0, Running) /\
       (ParseRequest (lconn st0)).1 = inl req /\
       areply (Apply (lsrv st0) (withClient req (Some (lclient st0))) (lapp st0))
       = Handled res None /\
       writes (lconn st0) (wpos (lconn st0)) = Some e /\
       tr = keepAlive (config srv) (transport conn) ++ tr0 ++
            armDeadline (config srv) ++
            [EvParse (inl req); EvWrite res (Some e);
             EvClose (id cl) (connClose (transport conn))]).
Proof.
  split.
  - intros n st0 tr0 req res e Hrun Hn Hr Ha Hw.
    pose proof (serveIter_replied st0 req res Hr Ha) as Hit.
    cbv zeta in Hit. rewrite Hw in Hit.
    destruct (serveClient_last_turn fuel srv cl conn app _ _ _ _ _ _ Hrun Hit Hn)
      as (Htr & Hs & Hc).
    split; [|exact Hs]. rewrite Htr, Hc, <- !app_assoc. reflexivity.
  - intros st tr Hs.
    destruct (serveClient_exited_turn _ _ _ _ _ _ _ _ Hs)
      as (n & st0 & tr0 & st1 & t1 & Hrun & Hit & -> & _ & Hc).
    destruct (serveIter_exit_write _ _ _ Hit) as (req & res & e & Hr & Ha & Hw & ->).
    exists n, st0, tr0, req, res, e.
    rewrite Hc, <- !app_assoc. repeat split; assumption.
Qed.

(** X28: take the request decoded after some turns of a session, whose
    dispatch returns an error that is no client error.  The session ends
    there: after the decode of that request comes the error reply built
    from that error, or nothing when the error is the end-of-stream
    value, and then the close.  And a session ends on an error of
    dispatch in this way only, never on a client error. *)
Theorem serveClient_fatal_error fuel srv cl conn app :
  (forall n st0 tr0 req err,
     serveLoop n (startLoop srv cl conn app) = (st0, tr0, Running) ->
     n < fuel ->
     (ParseRequest (lconn st0)).1 = inl req ->
     replyErr (areply (Apply (lsrv st0) (withClient req (Some (lclient st0))) (lapp st0)))
     = Some err ->
     isClientError err = false ->
     (serveClient fuel srv cl conn app).1.2 =
       keepAlive (config srv) (transport conn) ++ tr0 ++
       armDeadline (config srv) ++
       EvParse (inl req) ::
       (if decide (err = EOF) then []
        else [EvWrite (Failure err) (writes (lconn st0) (wpos (lconn st0)))]) ++
       [EvClose (id cl) (connClose (transport conn))] /\
     (serveClient fuel srv cl conn app).2 = Exited ExitFatal) /\
  (forall st tr,
     serveClient fuel srv cl conn app = (st, tr, Exited ExitFatal) ->
     exists n st0 tr0 req err,
       serveLoop n (startLoop srv cl conn app) = (st0, tr0, Running) /\
       (ParseRequest (lconn st0)).1 = inl req /\
       replyErr (areply (Apply (lsrv st0) (withClient req (Some (lclient st0))) (lapp st0)))
       = Some err /\
       isClientError err = false /\
       tr = keepAlive (config srv) (transport conn) ++ tr0 ++
            armDeadline (config srv) ++
            EvParse (inl req) ::
            (if decide (err = EOF) then []
             else [EvWrite (Failure err) (writes (lconn st0) (wpos (lconn st0)))]) ++
            [EvClose (id cl) (connClose (transport conn))]).
Proof.
  assert (Hwe : forall (c : Conn) err,
             (writeError (ParseRequest c).2 err).2 =
             if decide (err = EOF) then []
             else [EvWrite (Failure err) (writes c (wpos c))]).
  { intros c err. unfold writeError. now destruct (decide (err = EOF)). }
  split.
  - intros n st0 tr0 req err Hrun Hn Hr He Hc.
    pose proof (serveIter_failed st0 req err Hr He) as Hit.
    rewrite Hc, Hwe in Hit.
    destruct (serveClient_last_turn fuel srv cl conn app _ _ _ _ _ _ Hrun Hit Hn)
      as (Htr & Hs & Hcfg).
    split; [|exact Hs]. rewrite Htr, Hcfg, <- !app_assoc. reflexivity.
  - intros st tr Hs.
    destruct (serveClient_exited_turn _ _ _ _ _ _ _ _ Hs)
      as (n & st0 & tr0 & st1 & t1 & Hrun & Hit & -> & _ & Hcfg).
    destruct (serveIter_exit_fatal _ _ _ Hit) as (req & err & Hr & He & Hc & ->).
    exists n, st0, tr0, req, err.
    rewrite Hwe, Hcfg, <- !app_assoc. repeat split; assumption.
Qed.

(** X29: a session ends no later than at the first decode that fails: if
    the decode number [k] from its start fails, [serveClient] has
    returned after at most [k+1] turns of its loop. *)
Theorem serveClient_ends fuel srv cl conn app k e :
  reads conn (rpos conn + k) = inr e ->
  k < fuel ->
  exists why, (serveClient fuel srv cl conn app).2 = Exited why.
Proof.
  intros Hr Hk.
  assert (Hloop : forall k fuel (st : Loop App),
             reads (lconn st) (rpos (lconn st) + k) = inr e -> k < fuel ->
             exists why, (serveLoop fuel st).2 = Exited why).
  { clear. induction k as [|k IH]; intros fuel st Hr Hk.
    - destruct fuel as [|fuel]; [lia|]. rewrite Nat.add_0_r in Hr.
      cbn [serveLoop]. rewrite (serveIter_decode_failed st e Hr). eauto.
    - destruct fuel as [|fuel]; [lia|]. cbn [serveLoop].
      pose proof (serveIter_frame st) as (_ & _ & _ & _ & Hrd & _ & Hrp).
      destruct (serveIter st) as [[st1 t1] [w|]]; cbn [fst snd] in *; [eauto|].
      destruct (IH fuel st1) as [why Hw].
      + rewrite Hrd, Hrp. now rewrite Nat.add_succ_r in Hr.
      + lia.
      + destruct (serveLoop fuel st1) as [[st2 tr2] s]. cbn [snd] in *. eauto. }
  unfold serveClient.
  set (st0 := mkLoop _ cl conn app).
  destruct (Hloop k fuel st0 Hr Hk) as [why Hw].
  destruct (serveLoop fuel st0) as [[st' trl] s]. cbn [snd] in Hw. subst s.
  destruct (deregister _ _). eauto.
Qed.

(** X30: a session never writes more replies than it decoded requests or
    failures: every write follows a decode of its own. *)
Theorem serveClient_writes_bounded fuel srv cl conn app :
  length (written (serveClient fuel srv cl conn app).1.2)
  <= length (parses (serveClient fuel srv cl conn app).1.2).
Proof.
  assert (Hloop : forall fuel (st : Loop App),
             length (written (serveLoop fuel st).1.2)
             <= length (parses (serveLoop fuel st).1.2)).
  { clear. induction fuel as [|fuel IH]; intros st; [reflexivity|].
    cbn [serveLoop].
    assert (Hturn : length (written (serveIter st).1.2)
                    <= length (parses (serveIter st).1.2)).
    { rewrite serveIter_parses.
      destruct (serveIter_shape st) as (ws & -> & [->|(res & out & ->)]);
        rewrite written_app; unfold armDeadline; destruct (0 <? _)%Z; simpl; lia. }
    destruct (serveIter st) as [[st1 t1] [w|]]; cbn [fst snd] in *; [exact Hturn|].
    specialize (IH st1). destruct (serveLoop fuel st1) as [[st2 tr2] s].
    cbn [fst snd] in *. rewrite written_app, parses_app, !length_app. lia. }
  unfold serveClient.
  set (st0 := mkLoop _ cl conn app).
  specialize (Hloop fuel st0).
  assert (Hkw : forall cfg t, written (keepAlive cfg t) = []).
  { intros cfg t. unfold keepAlive.
    destruct (0 <? _)%Z; [destruct (isTCP _)|]; reflexivity. }
  destruct (serveLoop fuel st0) as [[st' trl] [|w]]; cbn [fst snd] in *.
  - now rewrite written_app, parses_app, Hkw, parses_keepAlive.
  - unfold deregister, clients_Close.
    destruct (clients (lsrv st') !! id cl); cbn [fst snd];
      rewrite !written_app, !parses_app, Hkw, parses_keepAlive, !length_app;
      simpl; lia.
Qed.

End ExitFacts.

Lemma serveClient_decode_failure_witness :
  (serveClient 5 sample session0 (garbler [call "ping"]) tt).2 = Exited ExitDecode.
Proof.
  set (x := serveClient 5 sample session0 (garbler [call "ping"]) tt).
  destruct (serveClient_decode_failure 5 sample session0 (garbler [call "ping"]) tt
              x.1.1 x.1.2 x.2
              [EvParse (inl (call "ping")); EvWrite (Fragments ["PONG"]) None]
              [EvWrite (Failure (OtherError "malformed frame")) None; EvClose 7 None]
              (OtherError "malformed frame"))
    as (Hs & _);
    [vm_compute; reflexivity | vm_compute; reflexivity | discriminate |].
  exact Hs.
Defined.

Lemma serveClient_write_failure_witness :
  (serveClient 5 sample session0 (deaf [call "nope"; call "ping"; call "ping"]) tt).1.2
  = [EvParse (inl (call "nope"));
     EvWrite (Failure (UnknownCommand "nope")) (Some (OtherError "broken pipe"));
     EvParse (inl (call "ping"));
     EvWrite (Fragments ["PONG"]) (Some (OtherError "broken pipe"));
     EvClose 7 None] /\
  (serveClient 5 sample session0 (deaf [call "nope"; call "ping"; call "ping"]) tt).2
  = Exited ExitWrite.
Proof.
  set (conn := deaf [call "nope"; call "ping"; call "ping"]).
  set (x := serveLoop 1 (startLoop sample session0 conn tt)).
  destruct (serveClient_write_failure 5 sample session0 conn tt) as [Hfail _].
  destruct (Hfail 1 x.1.1 x.1.2 (call "ping") (Fragments ["PONG"])
              (OtherError "broken pipe"))
    as [Htr Hs];
    [vm_compute; reflexivity | lia | reflexivity | vm_compute; reflexivity
     | reflexivity |].
  split; [rewrite Htr; vm_compute; reflexivity | exact Hs].
Defined.

Lemma serveClient_fatal_error_witness :
  (serveClient 5 fragile session0 (peer [call "ping"; call "crash"; call "ping"]) tt).1.2
  = [EvParse (inl (call "ping")); EvWrite (Fragments ["PONG"]) None;
     EvParse (inl (call "crash")); EvWrite (Failure (OtherError "disk full")) None;
     EvClose 7 None] /\
  (serveClient 5 fragile session0 (peer [call "ping"; call "crash"; call "ping"]) tt).2
  = Exited ExitFatal.
Proof.
  set (conn := peer [call "ping"; call "crash"; call "ping"]).
  set (x := serveLoop 1 (startLoop fragile session0 conn tt)).
  destruct (serveClient_fatal_error 5 fragile session0 conn tt) as [Hfatal _].
  destruct (Hfatal 1 x.1.1 x.1.2 (call "crash") (OtherError "disk full"))
    as [Htr Hs];
    [vm_compute; reflexivity | lia | reflexivity | vm_compute; reflexivity
     | reflexivity |].
  split; [rewrite Htr; vm_compute; reflexivity | exact Hs].
Defined.

Lemma serveClient_ends_witness :
  exists why, (serveClient 2 sample session0 (peer [call "ping"]) tt).2 = Exited why.
Proof.
  apply (serveClient_ends 2 sample session0 (peer [call "ping"]) tt 1 EOF);
    [reflexivity | lia].
Defined.

Lemma serveLoop_stays_open_witness :
  (serveLoop 3 (mkLoop gentle session0
                  (peer [call "ping"; call "half"; call "nope"]) tt)).2 = Running.
Proof.
  apply (serveLoop_stays_open [call "ping"; call "half"; call "nope"]
           (mkLoop gentle session0 (peer [call "ping"; call "half"; call "nope"]) tt)).
  - intros k h Hk.
    change ((<["half" := half]> (<["ping" := ping]> (∅ : gmap string (Handler unit))))
            !! k = Some h) in Hk.
    apply lookup_insert_Some in Hk as [[_ <-]|[_ Hk]].
    + intros res req app. split; [|reflexivity].
      intros e He. injection He as <-. reflexivity.
    + apply lookup_insert_Some in Hk as [[_ <-]|[_ Hk]].
      * intros res req app. split; [|reflexivity]. intros e He. discriminate He.
      * now rewrite lookup_empty in Hk.
  - reflexivity.
  - reflexivity.
  - intros i req Hi. simpl. now rewrite Hi.
Defined.
